(** * Process-level locking of a DVC repository

    A shallow embedding of [dvc/lock.py] (the exclusive gate on the
    repository's lock file) and of [dvc/rwlock.py] (the persisted table of
    per-path readers and writers), with the properties the specification
    states about them.

    Python code is embedded in a small state-and-exception monad: the state
    is the object the code mutates in place (the [lock] dictionary, the
    lock document on disk, the operating system seen by the gate), and an
    exception leaves the state as mutated so far, exactly as an in-place
    mutation followed by a [raise] does. *)

From stdpp Require Import base numbers option list strings gmap fin_maps.

Open Scope Z_scope.

(* ===================================================================== *)
(** * Exceptions and the monad of effects *)
(* ===================================================================== *)

(** Modelled from the spec: [relpath] of [dvc/utils/fs.py] is not among
    the sources.  The messages of [rwlock.py] name the contended path
    (spec, user-visible errors) as [relpath(path)], the path made relative
    to the current directory.  The current directory is no part of the
    model, so that text is kept symbolic: [Relpath path]. *)
Inductive shown_path : Type := Relpath (path : string).

(** The arguments a [LockError] is built from.  [lock.py] raises it with a
    fixed text; [rwlock.py] formats a text out of [relpath] of the busy
    path and of the process identifier(s) that hold it, which are kept
    apart here. *)
Inductive lock_error_info : Type :=
| Message (text : string)
| BusyWritten (path : shown_path) (by_writer : Z)
| BusyRead (path : shown_path) (by_readers : list Z).

Inductive exn : Type :=
| LockError (info : lock_error_info)      (* dvc.lock.LockError *)
| KeyError (key : string)                 (* a missing dictionary key *)
| AttributeError (attribute : string)     (* an attribute of None *)
| ValueError (text : string)
| FileNotFoundError
| JSONDecodeError
| UnicodeDecodeError
| RecursionError
| Invalid.                                (* voluptuous: schema violation *)

Inductive outcome (A : Type) : Type :=
| Returned (a : A)
| Raised (e : exn).
Arguments Returned {A} a.
Arguments Raised {A} e.

Definition M (St A : Type) : Type := St → St * outcome A.

Section Monad.
Context {St : Type}.

Definition ret {A} (a : A) : M St A := λ s, (s, Returned a).

Definition bind {A B} (m : M St A) (k : A → M St B) : M St B :=
  λ s, match m s with
       | (s', Returned a) => k a s'
       | (s', Raised e) => (s', Raised e)
       end.

Definition raise {A} (e : exn) : M St A := λ s, (s, Raised e).

Definition get : M St St := λ s, (s, Returned s).

Definition modify (f : St → St) : M St unit := λ s, (f s, Returned tt).

(** [try: m  except <handles>: h] *)
Definition try_except {A} (m : M St A) (handles : exn → bool) (h : M St A)
  : M St A :=
  λ s, match m s with
       | (s', Raised e) => if handles e then h s' else (s', Raised e)
       | r => r
       end.

(** [try: m  finally: f] *)
Definition try_finally {A} (m : M St A) (f : M St unit) : M St A :=
  λ s, match m s with
       | (s', r) =>
           match f s' with
           | (s'', Returned _) => (s'', r)
           | (s'', Raised e) => (s'', Raised e)
           end
       end.
End Monad.

Notation "x <- m ;; k" := (bind m (λ x, k))
  (at level 20, m at level 99, k at level 200, only parsing).
Notation "m ;; k" := (bind m (λ _, k))
  (at level 100, k at level 200, right associativity, only parsing).

(** [for x in xs: body(x)] *)
Fixpoint for_each {St A} (body : A → M St unit) (xs : list A) : M St unit :=
  match xs with
  | [] => ret tt
  | x :: xs' => body x ;; for_each body xs'
  end.

Definition is_lock_error (e : exn) : bool :=
  match e with LockError _ => true | _ => false end.

(** Modelled from the spec: [relpath] of [dvc/utils/fs.py] is not among
    the sources.  It rests on [os.path.relpath], which refuses the empty
    path with [ValueError("no path specified")]; of any other path it
    gives the relative form. *)
Definition relpath (path : string) : outcome shown_path :=
  if bool_decide (path = "")
  then Raised (ValueError "no path specified")
  else Returned (Relpath path).

(* ===================================================================== *)
(** * dvc/lock.py: the exclusive gate *)
(* ===================================================================== *)

Module Lock.

Definition DEFAULT_TIMEOUT : Z := 5.

Definition FAILED_TO_LOCK_MESSAGE : string :=
  "cannot perform the command because another DVC process seems to be "
  +:+ "running on this project. If that is not the case, manually remove "
  +:+ "`.dvc/lock` and try again.".

(** What the process does to the outside world, in order. *)
Inductive event : Type :=
| LockFile (lockfile : string)      (* zc.lockfile.LockFile(lockfile) *)
| Sleep (seconds : Z).              (* time.sleep(seconds) *)

(** The world seen by the gate.  [contended] lists, for the successive
    calls of [zc.lockfile.LockFile], whether the file is held by another
    process at that moment (the call then raises [zc.lockfile.LockError]);
    past the end of the list the file is free.  [_lock] is the attribute
    of the [Lock] object: the open lock file, when the gate is held. *)
Record world : Type := World {
  contended : list bool;
  trace : list event;
  _lock : option string;
}.

Definition log (ev : event) : M world unit :=
  modify (λ w, World (contended w) (trace w ++ [ev]) (_lock w)).

(** [zc.lockfile.LockFile(lockfile)]: [Returned true] is a handle on the
    file, [Returned false] stands for [zc.lockfile.LockError]. *)
Definition zc_LockFile (lockfile : string) : M world bool :=
  log (LockFile lockfile) ;;
  w <- get ;;
  match contended w with
  | [] => ret true
  | busy :: later =>
      modify (λ w, World later (trace w) (_lock w)) ;;
      ret (negb busy)
  end.

Definition time_sleep (seconds : Z) : M world unit := log (Sleep seconds).

Definition _do_lock (lockfile : string) : M world unit :=
  got <- zc_LockFile lockfile ;;
  if got
  then modify (λ w, World (contended w) (trace w) (Some lockfile))
  else raise (LockError (Message FAILED_TO_LOCK_MESSAGE)).

(** The [return] inside the [try] ends the method; an [except] clause
    that completes falls through to the second [_do_lock]. *)
Definition lock (lockfile : string) : M world unit :=
  try_except (_do_lock lockfile) is_lock_error
    (time_sleep DEFAULT_TIMEOUT ;; _do_lock lockfile).

(** [self._lock.close()] needs a lock file to close. *)
Definition unlock : M world unit :=
  w <- get ;;
  match _lock w with
  | Some _ => modify (λ w, World (contended w) (trace w) None)
  | None => raise (AttributeError "close")
  end.

(** How many times the trace tried to take the lock file. *)
Fixpoint attempts (evs : list event) : nat :=
  match evs with
  | [] => 0%nat
  | LockFile _ :: evs' => S (attempts evs')
  | Sleep _ :: evs' => attempts evs'
  end.

End Lock.

(* ===================================================================== *)
(** * dvc/rwlock.py: the table of readers and writers *)
(* ===================================================================== *)

(** Parsed JSON, as [json.load] returns it.  The items of a [JDict] are
    those of a Python dictionary: their keys are distinct. *)
#[local] Unset Elimination Schemes.
Inductive json : Type :=
| JNull
| JBool (b : bool)
| JInt (n : Z)
| JFloat (repr : string)
| JStr (s : string)
| JList (elems : list json)
| JDict (items : list (string * json)).
#[local] Set Elimination Schemes.

(** The file [<lock_dir>/rwlock], by what reading it does: absent
    ([open] raises [FileNotFoundError]); present with text that [json.load]
    rejects with [JSONDecodeError]; present and such that [open] or
    [json.load] raises another exception [e] on it (bytes that are no text
    in the encoding of the locale: [UnicodeDecodeError]; brackets nested
    beyond the recursion limit: [RecursionError]; ...); or present with
    text that parses to [j]. *)
Inductive document : Type :=
| Missing
| NotJson (text : string)
| Failing (e : exn)
| Json (j : json).

Module RWLock.

(** The value kept for a path: a dictionary with the optional keys
    ["writer"] and ["readers"]. *)
Record entry : Type := Entry {
  writer : option Z;
  readers : option (list Z);
}.

Abbreviation LockState := (gmap string entry).

Definition set_writer (e : entry) (w : option Z) : entry :=
  Entry w (readers e).
Definition set_readers (e : entry) (rs : option (list Z)) : entry :=
  Entry (writer e) rs.

(** ** Python's dictionary and truth-value primitives *)

(** [path in lock] *)
Definition contains (path : string) : M LockState bool :=
  lock <- get ;; ret (bool_decide (is_Some (lock !! path))).

(** [lock[path]] *)
Definition getitem (path : string) : M LockState entry :=
  lock <- get ;;
  match lock !! path with
  | Some e => ret e
  | None => raise (KeyError path)
  end.

(** [lock[path] = e] *)
Definition setitem (path : string) (e : entry) : M LockState unit :=
  modify (insert path e).

(** [del lock[path]] *)
Definition delitem (path : string) : M LockState unit :=
  lock <- get ;;
  match lock !! path with
  | Some _ => modify (delete path)
  | None => raise (KeyError path)
  end.

(** [lock[path][key]] for one of the two keys of an entry. *)
Definition subscript {St A} (key : string) (field : option A) : M St A :=
  match field with
  | Some v => ret v
  | None => raise (KeyError key)
  end.

(** [not lock[path]]: the entry is the empty dictionary. *)
Definition is_empty_entry (e : entry) : bool :=
  match writer e, readers e with
  | None, None => true
  | _, _ => false
  end.

(** [readers.remove(pid)]: drops the first occurrence. *)
Fixpoint list_remove (pid : Z) (rs : list Z) : list Z :=
  match rs with
  | [] => []
  | r :: rs' => if bool_decide (r = pid) then rs' else r :: list_remove pid rs'
  end.

(** Raise or return what a pure computation did. *)
Definition lift {St A} (r : outcome A) : M St A := λ s, (s, r).

(** ** The functions of the module; [pid] is [os.getpid()] *)

(** [if writer:] holds of an integer other than [0], and neither of [0]
    nor of the [None] that [.get] returns for a missing key. *)
Definition _check_no_writer (path : string) : M LockState unit :=
  e <- getitem path ;;
  match writer e with
  | Some writer =>
      if bool_decide (writer ≠ 0)
      then shown <- lift (relpath path) ;;
           raise (LockError (BusyWritten shown writer))
      else ret tt
  | None => ret tt
  end.

(** [if readers:] holds of a list that is not empty. *)
Definition _check_no_readers (path : string) : M LockState unit :=
  e <- getitem path ;;
  match readers e with
  | Some (r :: rs) =>
      shown <- lift (relpath path) ;;
      raise (LockError (BusyRead shown (r :: rs)))
  | Some [] | None => ret tt
  end.

Definition acquire_read_path (pid : Z) (path : string) : M LockState unit :=
  present <- contains path ;;
  (if present
   then _check_no_writer path
   else setitem path (Entry None (Some []))) ;;
  (* lock[path]["readers"].append(os.getpid()) *)
  e <- getitem path ;;
  rs <- subscript "readers" (readers e) ;;
  setitem path (set_readers e (Some (rs ++ [pid]))).

Definition _acquire_read (pid : Z) (paths : list string) : M LockState unit :=
  for_each (acquire_read_path pid) paths.

Definition acquire_write_path (pid : Z) (path : string) : M LockState unit :=
  present <- contains path ;;
  (if present
   then _check_no_writer path ;; _check_no_readers path
   else ret tt) ;;
  setitem path (Entry (Some pid) None).

Definition _acquire_write (pid : Z) (paths : list string) : M LockState unit :=
  for_each (acquire_write_path pid) paths.

(** [if not lock[path]: del lock[path]] *)
Definition prune (path : string) : M LockState unit :=
  e <- getitem path ;;
  if is_empty_entry e then delitem path else ret tt.

Definition release_read_path (pid : Z) (path : string) : M LockState unit :=
  present <- contains path ;;
  if negb present then ret tt (* continue *) else
  e <- getitem path ;;
  readers <- subscript "readers" (readers e) ;;
  (* [readers] aliases the list stored in the entry *)
  let readers' :=
    if bool_decide (pid ∈ readers) then list_remove pid readers else readers in
  setitem path (set_readers e (Some readers')) ;;
  (if bool_decide (readers' = [])
   then e <- getitem path ;; setitem path (set_readers e None)
   else ret tt) ;;
  prune path.

Definition _release_read (pid : Z) (paths : list string) : M LockState unit :=
  for_each (release_read_path pid) paths.

Definition release_write_path (pid : Z) (path : string) : M LockState unit :=
  present <- contains path ;;
  if negb present then ret tt (* continue *) else
  e <- getitem path ;;
  writer <- subscript "writer" (writer e) ;;
  (if bool_decide (writer = pid)
   then e <- getitem path ;; setitem path (set_writer e None)
   else ret tt) ;;
  prune path.

Definition _release_write (pid : Z) (paths : list string) : M LockState unit :=
  for_each (release_write_path pid) paths.

(** ** The schema and the document on disk *)

(** [int] as a voluptuous schema accepts what [isinstance(_, int)]
    accepts, which includes the booleans ([True == 1]). *)
Definition schema_int (j : json) : outcome Z :=
  match j with
  | JInt n => Returned n
  | JBool b => Returned (Z.b2z b)
  | _ => Raised Invalid
  end.

(** [[int]] *)
Fixpoint schema_ints (js : list json) : outcome (list Z) :=
  match js with
  | [] => Returned []
  | j :: js' =>
      match schema_int j, schema_ints js' with
      | Returned n, Returned ns => Returned (n :: ns)
      | Raised e, _ | _, Raised e => Raised e
      end
  end.

Definition schema_int_list (j : json) : outcome (list Z) :=
  match j with
  | JList js => schema_ints js
  | _ => Raised Invalid
  end.

(** [{Optional("writer"): int, Optional("readers"): [int]}]: any other
    key is refused (voluptuous forbids extra keys unless told not to). *)
Fixpoint schema_fields (items : list (string * json)) : outcome entry :=
  match items with
  | [] => Returned (Entry None None)
  | (key, v) :: items' =>
      if bool_decide (key = "writer") then
        match schema_int v, schema_fields items' with
        | Returned w, Returned e => Returned (set_writer e (Some w))
        | Raised e, _ | _, Raised e => Raised e
        end
      else if bool_decide (key = "readers") then
        match schema_int_list v, schema_fields items' with
        | Returned rs, Returned e => Returned (set_readers e (Some rs))
        | Raised e, _ | _, Raised e => Raised e
        end
      else Raised Invalid
  end.

Definition schema_entry (j : json) : outcome entry :=
  match j with
  | JDict items => schema_fields items
  | _ => Raised Invalid
  end.

(** [{Optional(str): ...}]: the keys of a JSON object are strings. *)
Fixpoint schema_paths (items : list (string * json)) : outcome LockState :=
  match items with
  | [] => Returned ∅
  | (path, v) :: items' =>
      match schema_entry v, schema_paths items' with
      | Returned e, Returned lock => Returned (<[path := e]> lock)
      | Raised e, _ | _, Raised e => Raised e
      end
  end.

Definition COMPLIED_SCHEMA (j : json) : outcome LockState :=
  match j with
  | JDict items => schema_paths items
  | _ => Raised Invalid
  end.

(** [json.dump] of an entry and of the table. *)
Definition entry_to_json (e : entry) : json :=
  JDict (match writer e with Some w => [("writer", JInt w)] | None => [] end
         ++ match readers e with
            | Some rs => [("readers", JList (JInt <$> rs))]
            | None => []
            end).

Definition to_json (lock : LockState) : json :=
  JDict (prod_map id entry_to_json <$> map_to_list lock).

(** [with open(path, "r") as fobj: json.load(fobj)] *)
Definition json_load : M document json :=
  doc <- get ;;
  match doc with
  | Missing => raise FileNotFoundError
  | NotJson _ => raise JSONDecodeError
  | Failing e => raise e
  | Json j => ret j
  end.

(** [with open(path, "w+") as fobj: json.dump(rwlock, fobj)] *)
Definition json_dump (lock : LockState) : M document unit :=
  modify (λ _, Json (to_json lock)).

Definition caught (e : exn) : bool :=
  match e with
  | FileNotFoundError | JSONDecodeError => true
  | _ => false
  end.

(** The part of [_rwlock] before its [yield]. *)
Definition load : M document LockState :=
  rwlock <- try_except json_load caught (ret (JDict [])) ;;
  (* convert_to_unicode is the identity on what json.load returns in
     Python 3 *)
  lift (COMPLIED_SCHEMA rwlock).

(** [with _rwlock(lock_dir) as lock: body]: a generator-based context
    manager without [try] around its [yield]; when the body raises, the
    code after the [yield] does not run and the exception goes on. *)
Definition _rwlock (body : M LockState unit) : M document unit :=
  rwlock <- load ;;
  match body rwlock with
  | (rwlock', Returned _) => json_dump rwlock'
  | (_, Raised e) => raise e
  end.

(** The two halves of [rwlock]: what runs before its [yield] and what
    its [finally] runs. *)
Definition acquire (pid : Z) (read write : list string) : M document unit :=
  _rwlock (_acquire_read pid read ;; _acquire_write pid write).

Definition release (pid : Z) (read write : list string) : M document unit :=
  _rwlock (_release_write pid write ;; _release_read pid read).

(** [with rwlock(tmp_dir, read, write): body] *)
Definition rwlock {A} (pid : Z) (read write : list string)
    (body : M document A) : M document A :=
  acquire pid read write ;;
  try_finally body (release pid read write).

(** ** Notions the properties are stated with *)

(** What a conflict on [path] raises: the [LockError] made of
    [relpath(path)] and of the holders, or what [relpath] raises. *)
Definition conflict (path : string) (info : shown_path → lock_error_info)
  : exn :=
  match relpath path with
  | Returned shown => LockError (info shown)
  | Raised e => e
  end.

(** The writer of an entry is non-empty: the key is there and Python
    takes its value for true. *)
Definition has_writer (e : entry) : bool :=
  match writer e with
  | Some w => bool_decide (w ≠ 0)
  | None => false
  end.

(** The readers of an entry are non-empty: the key is there and the
    list has an element. *)
Definition has_readers (e : entry) : bool :=
  match readers e with
  | Some (_ :: _) => true
  | _ => false
  end.

(** The documents the protocol can leave on disk, starting without one. *)
Inductive reachable : document → Prop :=
| reachable_start : reachable Missing
| reachable_acquire doc pid read write :
    reachable doc → reachable (acquire pid read write doc).1
| reachable_release doc pid read write :
    reachable doc → reachable (release pid read write doc).1.

(** How many times [path] occurs in [paths]. *)
Fixpoint occurrences (path : string) (paths : list string) : nat :=
  match paths with
  | [] => 0%nat
  | p :: paths' =>
      (if bool_decide (p = path) then 1 else 0)%nat + occurrences path paths'
  end.

(** The readers registered for [path], none when there is no entry or no
    list. *)
Definition readers_of (lock : LockState) (path : string) : list Z :=
  default [] (lock !! path ≫= readers).

(** The two shapes of the entries the protocol writes: a writer and no
    readers key, or a list of readers that is not empty and no writer
    key. *)
Definition exclusive (e : entry) : Prop :=
  match writer e, readers e with
  | Some _, None => True
  | None, Some (_ :: _) => True
  | _, _ => False
  end.

Definition consistent (lock : LockState) : Prop :=
  ∀ path e, lock !! path = Some e → exclusive e.

End RWLock.

Module Release.
Import RWLock.

(** From [lock] to [lock'] nothing is added, and nothing is taken away but
    the process [pid] as a writer and as a reader. *)
Definition takes_only (pid : Z) (lock lock' : LockState) : Prop :=
  ∀ path,
    (∀ w, lock' !! path ≫= writer = Some w → lock !! path ≫= writer = Some w)
    ∧ (∀ w, w ≠ pid → lock !! path ≫= writer = Some w →
         lock' !! path ≫= writer = Some w)
    ∧ (∀ q, q ∈ readers_of lock' path → q ∈ readers_of lock path)
    ∧ (∀ q, q ≠ pid → q ∈ readers_of lock path → q ∈ readers_of lock' path).

End Release.

(* ===================================================================== *)
(** * Properties of the exclusive gate *)
(* ===================================================================== *)

Module LockProps.
Import Lock.

Lemma attempts_app (evs1 evs2 : list event) :
  attempts (evs1 ++ evs2) = (attempts evs1 + attempts evs2)%nat.
Proof.
  induction evs1 as [|[f|n] evs1 IH]; simpl; [done | | done].
  by rewrite IH.
Qed.

(** C9.  [lock] tries to take the lock file at once.  When the file is
    free nothing else happens.  When it is held by another process,
    [lock] sleeps [DEFAULT_TIMEOUT = 5] seconds and tries exactly once
    more: the trace is one attempt, one sleep of 5, one attempt, and
    never holds a third attempt.  When the second attempt also finds the
    file held, [lock] raises [LockError] with the fixed text that tells
    the operator that another DVC process seems to be running and to
    remove [.dvc/lock] by hand if that is not the case. *)
Theorem lock_retries_exactly_once (lockfile : string) (w : world) :
  let w' := (lock lockfile w).1 in
  let r := (lock lockfile w).2 in
  FAILED_TO_LOCK_MESSAGE =
    "cannot perform the command because another DVC process seems to be running on this project. If that is not the case, manually remove `.dvc/lock` and try again."
  ∧ (attempts (trace w') ≤ attempts (trace w) + 2)%nat
  ∧ match contended w with
    | [] | false :: _ =>
        r = Returned tt
        ∧ trace w' = trace w ++ [LockFile lockfile]
        ∧ _lock w' = Some lockfile
    | true :: ([] | false :: _) =>
        r = Returned tt
        ∧ trace w' = trace w ++ [LockFile lockfile; Sleep 5; LockFile lockfile]
        ∧ _lock w' = Some lockfile
    | true :: true :: _ =>
        r = Raised (LockError (Message FAILED_TO_LOCK_MESSAGE))
        ∧ trace w' = trace w ++ [LockFile lockfile; Sleep 5; LockFile lockfile]
        ∧ _lock w' = _lock w
    end.
Proof.
  destruct w as [c t l].
  split; [reflexivity |].
  destruct c as [|[] [|[] c]]; cbn;
    rewrite <- ?app_assoc, ?attempts_app; cbn;
    (split; [lia | done]).
Qed.

End LockProps.

(* ===================================================================== *)
(** * Properties of the table of readers and writers *)
(* ===================================================================== *)

Module RWLockProps.
Import RWLock.

(** ** The loop over the paths *)

Lemma for_each_cons {St A} (body : A → M St unit) (x : A) (xs : list A) s :
  for_each body (x :: xs) s =
    match body x s with
    | (s', Returned _) => for_each body xs s'
    | (s', Raised e) => (s', Raised e)
    end.
Proof. reflexivity. Qed.

Lemma for_each_app {St A} (body : A → M St unit) (xs ys : list A) s :
  for_each body (xs ++ ys) s =
    match for_each body xs s with
    | (s', Returned _) => for_each body ys s'
    | (s', Raised e) => (s', Raised e)
    end.
Proof.
  revert s. induction xs as [|x xs IH]; intros s; [done |].
  rewrite <- app_comm_cons, !for_each_cons.
  destruct (body x s) as [s' [[]|e]]; [apply IH | done].
Qed.

(** Settles a conjunction of closed equations by running both sides. *)
Ltac evaluate := cbv zeta; repeat apply conj; vm_compute; reflexivity.

(** ** What one turn of each loop does, by the entry it finds *)

(** Runs a loop body on a table whose entry at the path is known. *)
Ltac run H :=
  unfold acquire_read_path, acquire_write_path, release_read_path,
    release_write_path, _check_no_writer, _check_no_readers, prune,
    contains, getitem, setitem, delitem, subscript, set_readers,
    set_writer, is_empty_entry, lift, conflict, bind, get, modify, ret, raise;
  repeat progress (rewrite ?H, ?lookup_insert_eq; cbn).

Section Steps.
Context (pid : Z) (path : string) (lock : LockState).

Lemma acquire_read_free :
  lock !! path = None →
  acquire_read_path pid path lock =
    (<[path := Entry None (Some [pid])]> lock, Returned tt).
Proof. intros H. run H. by rewrite insert_insert_eq. Qed.

Lemma acquire_read_written e w :
  lock !! path = Some e → writer e = Some w → w ≠ 0 →
  acquire_read_path pid path lock =
    (lock, Raised (conflict path (λ shown, BusyWritten shown w))).
Proof.
  intros H Hw Hn. run H. rewrite Hw, bool_decide_true by done. run H.
  by destruct (relpath path).
Qed.

Lemma acquire_read_entry e :
  lock !! path = Some e → has_writer e = false →
  acquire_read_path pid path lock =
    match readers e with
    | Some rs =>
        (<[path := Entry (writer e) (Some (rs ++ [pid]))]> lock, Returned tt)
    | None => (lock, Raised (KeyError "readers"))
    end.
Proof.
  destruct e as [[w|] rs]; unfold has_writer; cbn; intros H Hw; run H;
    [rewrite Hw |]; run H; by destruct rs.
Qed.

Lemma acquire_write_free :
  lock !! path = None →
  acquire_write_path pid path lock =
    (<[path := Entry (Some pid) None]> lock, Returned tt).
Proof. intros H. by run H. Qed.

Lemma acquire_write_entry e :
  lock !! path = Some e →
  acquire_write_path pid path lock =
    if has_writer e
    then (lock,
          Raised (conflict path
                    (λ shown, BusyWritten shown (default 0 (writer e)))))
    else if has_readers e
    then (lock,
          Raised (conflict path
                    (λ shown, BusyRead shown (default [] (readers e)))))
    else (<[path := Entry (Some pid) None]> lock, Returned tt).
Proof.
  destruct e as [[w|] rs]; unfold has_writer, has_readers; cbn;
    intros H; run H;
    [destruct (bool_decide (w ≠ 0)); [run H; by destruct (relpath path) |] |];
    run H; destruct rs as [[|r rs]|]; run H; try done;
    by destruct (relpath path).
Qed.

Lemma release_read_free :
  lock !! path = None → release_read_path pid path lock = (lock, Returned tt).
Proof. intros H. by run H. Qed.

Lemma release_read_entry e :
  lock !! path = Some e →
  release_read_path pid path lock =
    match readers e with
    | None => (lock, Raised (KeyError "readers"))
    | Some rs =>
        let rs' := if bool_decide (pid ∈ rs) then list_remove pid rs else rs in
        if bool_decide (rs' = [])
        then match writer e with
             | None => (delete path lock, Returned tt)
             | Some w => (<[path := Entry (Some w) None]> lock, Returned tt)
             end
        else (<[path := Entry (writer e) (Some rs')]> lock, Returned tt)
    end.
Proof.
  destruct e as [w [rs|]]; cbn; intros H; run H; [|done].
  set (rs' := if bool_decide (pid ∈ rs) then _ else _).
  destruct (bool_decide (rs' = [])) eqn:E; run H.
  - rewrite insert_insert_eq.
    destruct w; run H; [done |]. by rewrite delete_insert_eq.
  - by destruct w.
Qed.

Lemma release_write_free :
  lock !! path = None → release_write_path pid path lock = (lock, Returned tt).
Proof. intros H. by run H. Qed.

Lemma release_write_entry e :
  lock !! path = Some e →
  release_write_path pid path lock =
    match writer e with
    | None => (lock, Raised (KeyError "writer"))
    | Some w =>
        if bool_decide (w = pid)
        then match readers e with
             | None => (delete path lock, Returned tt)
             | Some rs => (<[path := Entry None (Some rs)]> lock, Returned tt)
             end
        else (lock, Returned tt)
    end.
Proof.
  destruct e as [[w|] rs]; cbn; intros H; run H; [|done].
  destruct (bool_decide (w = pid)) eqn:E; run H; [|done].
  destruct rs; run H; [done |]. by rewrite delete_insert_eq.
Qed.
End Steps.

Lemma occurrences_0 (path : string) (paths : list string) :
  occurrences path paths = 0%nat ↔ path ∉ paths.
Proof.
  induction paths as [|p paths IH]; cbn.
  - split; [intros _; apply not_elem_of_nil | done].
  - rewrite not_elem_of_cons, <- IH. case_bool_decide as Hp.
    + split; [done | by intros [Hne _]].
    + split; [by split | by intros [_ E]].
Qed.

Lemma occurrences_pos (path : string) (paths : list string) :
  path ∈ paths → ∃ n, occurrences path paths = S n.
Proof.
  intros Hin. destruct (occurrences path paths) as [|n] eqn:E; [|eauto].
  by apply occurrences_0 in E.
Qed.

(** ** The read loop of an acquire *)

Lemma acquire_read_path_returned pid path (lock lock' : LockState) :
  acquire_read_path pid path lock = (lock', Returned tt) →
  lock' = <[path := Entry (lock !! path ≫= writer)
                          (Some (readers_of lock path ++ [pid]))]> lock
  ∧ ∀ e, lock !! path = Some e → has_writer e = false ∧ is_Some (readers e).
Proof.
  unfold readers_of. destruct (lock !! path) as [e|] eqn:H.
  - destruct (has_writer e) eqn:Hw.
    + unfold has_writer in Hw. destruct (writer e) as [w|] eqn:Ew; [|done].
      apply bool_decide_eq_true in Hw.
      by rewrite (acquire_read_written pid path lock e w).
    + rewrite (acquire_read_entry pid path lock e) by done.
      destruct (readers e) as [rs|] eqn:Er; [|done].
      intros [= <-]. cbn. rewrite Er. cbn. split; [done |].
      intros ? [= <-]. rewrite Er. eauto.
  - rewrite acquire_read_free by done. intros [= <-]. by split.
Qed.

(** After the read loop each path has got the caller once per occurrence,
    at the end of its list of readers, and nothing else has changed. *)
Lemma acquire_read_returned pid read (lock lock' : LockState) :
  _acquire_read pid read lock = (lock', Returned tt) →
  ∀ path,
    lock' !! path =
      match occurrences path read with
      | O => lock !! path
      | S _ as k =>
          Some (Entry (lock !! path ≫= writer)
                      (Some (readers_of lock path ++ replicate k pid)))
      end.
Proof.
  unfold _acquire_read. revert lock.
  induction read as [|p read IH]; intros lock.
  - by intros [= <-].
  - rewrite for_each_cons.
    destruct (acquire_read_path pid p lock) as [lock1 [[]|e]] eqn:E; [|done].
    apply acquire_read_path_returned in E as [-> _].
    intros Hrest path. rewrite (IH _ Hrest path). cbn [occurrences].
    case_bool_decide as Hp.
    + subst p. unfold readers_of. rewrite lookup_insert_eq. cbn.
      destruct (occurrences path read) as [|n]; cbn; [done |].
      by rewrite <- app_assoc.
    + unfold readers_of. rewrite lookup_insert_ne by done. done.
Qed.

(** ** The write loop of an acquire *)

Lemma acquire_write_path_returned pid path (lock lock' : LockState) :
  acquire_write_path pid path lock = (lock', Returned tt) →
  lock' = <[path := Entry (Some pid) None]> lock
  ∧ ∀ e, lock !! path = Some e → has_writer e = false ∧ has_readers e = false.
Proof.
  destruct (lock !! path) as [e|] eqn:H.
  - rewrite (acquire_write_entry pid path lock e) by done.
    destruct (has_writer e) eqn:Hw; [done |].
    destruct (has_readers e) eqn:Hr; [done |].
    intros [= <-]. split; [done |]. by intros ? [= <-].
  - rewrite acquire_write_free by done. intros [= <-]. by split.
Qed.

Lemma acquire_write_path_raised pid path (lock lock' : LockState) err :
  acquire_write_path pid path lock = (lock', Raised err) →
  lock' = lock ∧
  ∃ e, lock !! path = Some e ∧
       if has_writer e
       then err = conflict path
                    (λ shown, BusyWritten shown (default 0 (writer e)))
       else has_readers e = true
            ∧ err = conflict path
                      (λ shown, BusyRead shown (default [] (readers e))).
Proof.
  destruct (lock !! path) as [e|] eqn:H.
  - rewrite (acquire_write_entry pid path lock e) by done.
    destruct (has_writer e) eqn:Hw.
    + intros [= <- <-]. split; [done |]. exists e. by rewrite Hw.
    + destruct (has_readers e) eqn:Hr; [|done].
      intros [= <- <-]. split; [done |]. exists e. by rewrite Hw.
  - by rewrite acquire_write_free.
Qed.

(** After the write loop each written path holds the caller as its
    writer and nothing else has changed; no written path had readers. *)
Lemma acquire_write_returned pid write (lock lock' : LockState) :
  _acquire_write pid write lock = (lock', Returned tt) →
  (∀ path,
     lock' !! path =
       if bool_decide (path ∈ write) then Some (Entry (Some pid) None)
       else lock !! path)
  ∧ ∀ path e, path ∈ write → lock !! path = Some e → has_readers e = false.
Proof.
  unfold _acquire_write. revert lock.
  induction write as [|p write IH]; intros lock.
  - intros [= <-]. split; [done |]. intros ?? Hin. by apply elem_of_nil in Hin.
  - rewrite for_each_cons.
    destruct (acquire_write_path pid p lock) as [lock1 [[]|e]] eqn:E; [|done].
    apply acquire_write_path_returned in E as [-> Hp].
    intros Hrest. destruct (IH _ Hrest) as [Hlook Hfree]. split.
    + intros path. rewrite Hlook. destruct (decide (path = p)) as [->|Hne].
      * rewrite lookup_insert_eq, (bool_decide_true (p ∈ p :: write)) by left.
        by case_bool_decide.
      * rewrite lookup_insert_ne by done.
        rewrite (bool_decide_ext (path ∈ p :: write) (path ∈ write)); [done |].
        rewrite elem_of_cons. split; [by intros [?|?] | by right].
    + intros path e Hin Hl. destruct (decide (path = p)) as [->|Hne].
      * by apply Hp.
      * apply elem_of_cons in Hin as [?|Hin]; [done |].
        apply (Hfree path e Hin). by rewrite lookup_insert_ne.
Qed.

(** A conflict on a path that is not the empty one raises a [LockError]. *)
Lemma conflict_LockError path (info : shown_path → lock_error_info) :
  path ≠ "" → conflict path info = LockError (info (Relpath path)).
Proof.
  intros Hne. unfold conflict, relpath. by rewrite bool_decide_false.
Qed.

(** A write loop without the empty path raises nothing but the two
    conflicts. *)
Lemma acquire_write_raised pid write (lock lock' : LockState) err :
  "" ∉ write →
  _acquire_write pid write lock = (lock', Raised err) →
  is_lock_error err = true.
Proof.
  unfold _acquire_write. revert lock.
  induction write as [|p write IH]; intros lock Hpaths; [done |].
  apply not_elem_of_cons in Hpaths as [Hp Hpaths].
  rewrite for_each_cons.
  destruct (acquire_write_path pid p lock) as [lock1 [[]|e]] eqn:E.
  - by apply IH.
  - intros [= <- <-]. apply acquire_write_path_raised in E as (_ & e' & _ & E).
    destruct (has_writer e'); [|destruct E as [_ E]];
      subst e; by rewrite conflict_LockError.
Qed.

(** ** The loops of a release, on what the caller itself holds *)

Lemma release_write_own pid write (lock : LockState) :
  (∀ path, path ∈ write →
     lock !! path = Some (Entry (Some pid) None) ∨ lock !! path = None) →
  ∃ lock',
    _release_write pid write lock = (lock', Returned tt)
    ∧ ∀ path,
        lock' !! path = if bool_decide (path ∈ write) then None else lock !! path.
Proof.
  unfold _release_write. revert lock.
  induction write as [|p write IH]; intros lock Hown.
  - exists lock. split; [done |]. intros path.
    by rewrite bool_decide_false by apply not_elem_of_nil.
  - rewrite for_each_cons.
    assert (∃ lock1, release_write_path pid p lock = (lock1, Returned tt)
                     ∧ lock1 = delete p lock) as (lock1 & -> & ->).
    { destruct (Hown p) as [H|H]; [left | |].
      - rewrite (release_write_entry pid p lock _ H). cbn.
        rewrite bool_decide_true by done. eauto.
      - rewrite release_write_free by done. eexists. split; [done |].
        by rewrite delete_id. }
    destruct (IH (delete p lock)) as (lock' & -> & Hlook).
    { intros path Hin. destruct (decide (path = p)) as [->|Hne].
      - right. apply lookup_delete_eq.
      - rewrite lookup_delete_ne by done. apply Hown. by right. }
    exists lock'. split; [done |]. intros path. rewrite Hlook.
    destruct (decide (path = p)) as [->|Hne].
    + rewrite lookup_delete_eq, (bool_decide_true (p ∈ p :: write)) by left.
      by case_bool_decide.
    + rewrite lookup_delete_ne by done.
      rewrite (bool_decide_ext (path ∈ p :: write) (path ∈ write)); [done |].
      rewrite elem_of_cons. split; [by intros [?|?] | by right].
Qed.

Lemma release_read_own pid read (lock : LockState) :
  (∀ path, path ∈ read →
     lock !! path =
       Some (Entry None (Some (replicate (occurrences path read) pid)))) →
  ∃ lock',
    _release_read pid read lock = (lock', Returned tt)
    ∧ ∀ path,
        lock' !! path = if bool_decide (path ∈ read) then None else lock !! path.
Proof.
  unfold _release_read. revert lock.
  induction read as [|p read IH]; intros lock Hown.
  - exists lock. split; [done |]. intros path.
    by rewrite bool_decide_false by apply not_elem_of_nil.
  - rewrite for_each_cons.
    pose proof (Hown p ltac:(left)) as Hp. cbn [occurrences] in Hp.
    rewrite bool_decide_true in Hp by done. cbn in Hp.
    rewrite (release_read_entry pid p lock _ Hp). cbn.
    rewrite (bool_decide_true (pid ∈ _)) by left.
    rewrite (bool_decide_true (pid = pid)) by done.
    assert (∀ path, path ∈ read → path ≠ p →
              lock !! path =
                Some (Entry None (Some (replicate (occurrences path read) pid))))
      as Hothers.
    { intros path Hin Hne. rewrite (Hown path) by by right.
      cbn [occurrences]. by rewrite bool_decide_false. }
    destruct (occurrences p read) as [|n] eqn:Hn; cbn.
    + apply occurrences_0 in Hn.
      destruct (IH (delete p lock)) as (lock' & -> & Hlook).
      { intros path Hin. assert (path ≠ p) by (by intros ->).
        rewrite lookup_delete_ne by done. by apply Hothers. }
      exists lock'. split; [done |]. intros path. rewrite Hlook.
      destruct (decide (path = p)) as [->|Hne].
      * rewrite lookup_delete_eq, (bool_decide_true (p ∈ p :: read)) by left.
        by case_bool_decide.
      * rewrite lookup_delete_ne by done.
        rewrite (bool_decide_ext (path ∈ p :: read) (path ∈ read)); [done |].
        rewrite elem_of_cons. split; [by intros [?|?] | by right].
    + assert (p ∈ read) as Hpin.
      { destruct (decide (p ∈ read)) as [|Hnin]; [done |].
        apply occurrences_0 in Hnin. congruence. }
      destruct (IH (<[p := Entry None (Some (pid :: replicate n pid))]> lock))
        as (lock' & -> & Hlook).
      { intros path Hin. destruct (decide (path = p)) as [->|Hne].
        - by rewrite lookup_insert_eq, Hn.
        - rewrite lookup_insert_ne by done. by apply Hothers. }
      exists lock'. split; [done |]. intros path. rewrite Hlook.
      destruct (decide (path = p)) as [->|Hne].
      * by rewrite (bool_decide_true (p ∈ read)),
          (bool_decide_true (p ∈ p :: read)) by (done || left).
      * rewrite lookup_insert_ne by done.
        rewrite (bool_decide_ext (path ∈ p :: read) (path ∈ read)); [done |].
        rewrite elem_of_cons. split; [by intros [?|?] | by right].
Qed.

(** ** The shape of the entries is kept by every loop *)

Lemma for_each_invariant {St A} (P : St → Prop) (body : A → M St unit) :
  (∀ x s s', P s → body x s = (s', Returned tt) → P s') →
  ∀ xs s s', P s → for_each body xs s = (s', Returned tt) → P s'.
Proof.
  intros Hbody xs. induction xs as [|x xs IH]; intros s s' Hs.
  - by intros [= <-].
  - rewrite for_each_cons. destruct (body x s) as [s1 [[]|e]] eqn:E; [|done].
    apply IH. by apply (Hbody x s).
Qed.

Lemma consistent_insert (lock : LockState) path e :
  consistent lock → exclusive e → consistent (<[path := e]> lock).
Proof.
  intros Hc He p e'. destruct (decide (p = path)) as [->|Hne].
  - rewrite lookup_insert_eq. by intros [= <-].
  - rewrite lookup_insert_ne by done. apply Hc.
Qed.

Lemma consistent_delete (lock : LockState) path :
  consistent lock → consistent (delete path lock).
Proof.
  intros Hc p e'. destruct (decide (p = path)) as [->|Hne].
  - by rewrite lookup_delete_eq.
  - rewrite lookup_delete_ne by done. apply Hc.
Qed.

Lemma exclusive_inv e :
  exclusive e →
  (∃ w, e = Entry (Some w) None) ∨ (∃ r rs, e = Entry None (Some (r :: rs))).
Proof. destruct e as [[w|] [[|r rs]|]]; cbn; intros []; eauto. Qed.

Lemma acquire_read_path_consistent pid path (lock lock' : LockState) :
  consistent lock →
  acquire_read_path pid path lock = (lock', Returned tt) → consistent lock'.
Proof.
  intros Hc E. apply acquire_read_path_returned in E as [-> He].
  apply consistent_insert; [done |]. unfold readers_of.
  destruct (lock !! path) as [e|] eqn:H; [|done].
  destruct (He e eq_refl) as [_ [rs Hrs]].
  destruct (exclusive_inv e (Hc _ _ H)) as [[w ->]|(r & rs' & ->)]; done.
Qed.

Lemma acquire_write_path_consistent pid path (lock lock' : LockState) :
  consistent lock →
  acquire_write_path pid path lock = (lock', Returned tt) → consistent lock'.
Proof.
  intros Hc E. apply acquire_write_path_returned in E as [-> _].
  by apply consistent_insert.
Qed.

Lemma release_write_path_consistent pid path (lock lock' : LockState) :
  consistent lock →
  release_write_path pid path lock = (lock', Returned tt) → consistent lock'.
Proof.
  intros Hc. destruct (lock !! path) as [e|] eqn:H.
  - rewrite (release_write_entry pid path lock e H).
    destruct (exclusive_inv e (Hc _ _ H)) as [[w ->]|(r & rs' & ->)]; cbn;
      [|done].
    case_bool_decide; intros [= <-]; [by apply consistent_delete | done].
  - rewrite release_write_free by done. by intros [= <-].
Qed.

Lemma release_read_path_consistent pid path (lock lock' : LockState) :
  consistent lock →
  release_read_path pid path lock = (lock', Returned tt) → consistent lock'.
Proof.
  intros Hc. destruct (lock !! path) as [e|] eqn:H.
  - rewrite (release_read_entry pid path lock e H).
    destruct (exclusive_inv e (Hc _ _ H)) as [[w ->]|(r & rs' & ->)]; cbn;
      [done |].
    set (left := if bool_decide (pid ∈ r :: rs') then _ else _).
    case_bool_decide as Hleft; intros [= <-]; [by apply consistent_delete |].
    apply consistent_insert; [done |]. by destruct left.
  - rewrite release_read_free by done. by intros [= <-].
Qed.

Lemma acquire_consistent pid read write (lock lock' : LockState) :
  consistent lock →
  (_acquire_read pid read ;; _acquire_write pid write) lock
    = (lock', Returned tt) →
  consistent lock'.
Proof.
  intros Hc. unfold bind.
  destruct (_acquire_read pid read lock) as [lock1 [[]|e]] eqn:E; [|done].
  apply for_each_invariant with (P := consistent).
  - intros ???. apply acquire_write_path_consistent.
  - revert E. apply for_each_invariant with (P := consistent); [|done].
    intros ???. apply acquire_read_path_consistent.
Qed.

Lemma release_consistent pid read write (lock lock' : LockState) :
  consistent lock →
  (_release_write pid write ;; _release_read pid read) lock
    = (lock', Returned tt) →
  consistent lock'.
Proof.
  intros Hc. unfold bind.
  destruct (_release_write pid write lock) as [lock1 [[]|e]] eqn:E; [|done].
  apply for_each_invariant with (P := consistent).
  - intros ???. apply release_read_path_consistent.
  - revert E. apply for_each_invariant with (P := consistent); [|done].
    intros ???. apply release_write_path_consistent.
Qed.

(** ** The document on disk *)

Lemma schema_ints_JInt (rs : list Z) : schema_ints (JInt <$> rs) = Returned rs.
Proof. induction rs as [|r rs IH]; [done |]. cbn. by rewrite IH. Qed.

Lemma schema_entry_to_json (e : entry) :
  schema_entry (entry_to_json e) = Returned e.
Proof.
  destruct e as [[w|] [rs|]]; cbn; by rewrite ?schema_ints_JInt.
Qed.

Lemma schema_paths_to_json (items : list (string * entry)) :
  schema_paths (prod_map id entry_to_json <$> items)
    = Returned (list_to_map items).
Proof.
  induction items as [|[path e] items IH]; [done |].
  rewrite fmap_cons. unfold prod_map at 1. cbn [fst snd schema_paths id].
  by rewrite schema_entry_to_json, IH.
Qed.

(** What [json.dump] writes passes the schema and is read back as the
    table that was written. *)
Lemma COMPLIED_SCHEMA_to_json (lock : LockState) :
  COMPLIED_SCHEMA (to_json lock) = Returned lock.
Proof.
  unfold to_json. cbn. rewrite schema_paths_to_json.
  by rewrite list_to_map_to_list.
Qed.

Lemma load_to_json (lock : LockState) :
  load (Json (to_json lock)) = (Json (to_json lock), Returned lock).
Proof.
  unfold load, try_except, json_load, lift, bind, get, ret. cbn [caught].
  by rewrite COMPLIED_SCHEMA_to_json.
Qed.

Lemma load_Missing : load Missing = (Missing, Returned ∅).
Proof. reflexivity. Qed.

Lemma load_NotJson text : load (NotJson text) = (NotJson text, Returned ∅).
Proof. reflexivity. Qed.

Lemma load_unchanged (doc : document) : (load doc).1 = doc.
Proof.
  destruct doc as [| |e|j]; [done | done | |];
    unfold load, try_except, json_load, lift, bind, get, ret, raise;
    [by destruct (caught e) | done].
Qed.

Lemma json_load_unchanged (doc : document) : (json_load doc).1 = doc.
Proof. by destruct doc. Qed.

(** Reading that raises one of the two exceptions of the [except] clause
    gives the empty table. *)
Lemma load_caught (doc : document) e :
  (json_load doc).2 = Raised e → caught e = true →
  load doc = (doc, Returned ∅).
Proof.
  intros Hread Hcaught. unfold load, try_except, bind.
  pose proof (json_load_unchanged doc) as Hdoc.
  destruct (json_load doc) as [doc' [j|e']]; cbn in *; [done |].
  injection Hread as ->. subst doc'. by rewrite Hcaught.
Qed.

(** Reading that raises anything else raises it out of [load]. *)
Lemma load_uncaught (doc : document) e :
  (json_load doc).2 = Raised e → caught e = false →
  load doc = (doc, Raised e).
Proof.
  intros Hread Hcaught. unfold load, try_except, bind.
  pose proof (json_load_unchanged doc) as Hdoc.
  destruct (json_load doc) as [doc' [j|e']]; cbn in *; [done |].
  injection Hread as ->. subst doc'. by rewrite Hcaught.
Qed.

(** The scoped load, mutate and save: the document is rewritten when the
    body returns, and only then. *)
Lemma _rwlock_run (body : M LockState unit) (doc : document) :
  _rwlock body doc =
    match (load doc).2 with
    | Returned lock =>
        match body lock with
        | (lock', Returned _) => (Json (to_json lock'), Returned tt)
        | (_, Raised e) => (doc, Raised e)
        end
    | Raised e => (doc, Raised e)
    end.
Proof.
  unfold _rwlock, bind. pose proof (load_unchanged doc) as Hdoc.
  destruct (load doc) as [doc' [lock|e]]; cbn in *; subst doc'; [|done].
  by destruct (body lock) as [lock' [[]|e]].
Qed.

Lemma acquire_run pid read write (doc : document) :
  acquire pid read write doc =
    match (load doc).2 with
    | Returned lock =>
        match (_acquire_read pid read ;; _acquire_write pid write) lock with
        | (lock', Returned _) => (Json (to_json lock'), Returned tt)
        | (_, Raised e) => (doc, Raised e)
        end
    | Raised e => (doc, Raised e)
    end.
Proof. apply _rwlock_run. Qed.

Lemma release_run pid read write (doc : document) :
  release pid read write doc =
    match (load doc).2 with
    | Returned lock =>
        match (_release_write pid write ;; _release_read pid read) lock with
        | (lock', Returned _) => (Json (to_json lock'), Returned tt)
        | (_, Raised e) => (doc, Raised e)
        end
    | Raised e => (doc, Raised e)
    end.
Proof. apply _rwlock_run. Qed.

(** Every document the protocol leaves is the dump of a table whose
    entries all have one of the two exclusive shapes. *)
Lemma reachable_consistent (doc : document) :
  reachable doc →
  ∃ lock, (doc = Missing ∧ lock = ∅ ∨ doc = Json (to_json lock))
          ∧ (load doc).2 = Returned lock
          ∧ consistent lock.
Proof.
  induction 1 as [|doc pid read write _ (lock & Hdoc & Hload & Hc)
                  |doc pid read write _ (lock & Hdoc & Hload & Hc)].
  - exists ∅. split; [by left |]. split; [done |]. intros ??.
    by rewrite lookup_empty.
  - rewrite acquire_run, Hload.
    destruct ((_acquire_read pid read ;; _acquire_write pid write) lock)
      as [lock' [[]|e]] eqn:E; cbn [fst]; [|by exists lock].
    exists lock'. split; [by right |]. rewrite load_to_json.
    split; [done |]. by apply (acquire_consistent pid read write lock).
  - rewrite release_run, Hload.
    destruct ((_release_write pid write ;; _release_read pid read) lock)
      as [lock' [[]|e]] eqn:E; cbn [fst]; [|by exists lock].
    exists lock'. split; [by right |]. rewrite load_to_json.
    split; [done |]. by apply (release_consistent pid read write lock).
Qed.

Lemma exclusive_not_both (e : entry) :
  exclusive e → ¬ (has_writer e = true ∧ has_readers e = true).
Proof.
  unfold has_writer, has_readers.
  destruct e as [[w|] [[|r rs]|]]; cbn; intros [] []; done.
Qed.

(** C1.  In every document reachable from the absent one by acquires and
    releases (of any readers, writers and processes, failed calls
    included), the document loads as a table, and no path of it has an
    entry whose writer and whose readers are both non-empty. *)
Theorem reachable_never_writer_and_readers (doc : document) :
  reachable doc →
  ∃ lock,
    (load doc).2 = Returned lock
    ∧ ∀ path e,
        lock !! path = Some e →
        ¬ (has_writer e = true ∧ has_readers e = true).
Proof.
  intros (lock & _ & Hload & Hc)%reachable_consistent.
  exists lock. split; [done |]. intros path e H.
  by apply exclusive_not_both, (Hc path).
Qed.

Lemma reachable_never_writer_and_readers_witness :
  let doc := (release 100 ["data/foo"] []
                (acquire 200 [] ["data/bar"]
                   (acquire 100 ["data/foo"] [] Missing).1).1).1 in
  reachable doc
  ∧ ∃ lock,
      (load doc).2 = Returned lock
      ∧ ∀ path e,
          lock !! path = Some e →
          ¬ (has_writer e = true ∧ has_readers e = true).
Proof.
  assert (reachable (release 100 ["data/foo"] []
                       (acquire 200 [] ["data/bar"]
                          (acquire 100 ["data/foo"] [] Missing).1).1).1)
    as Hreach.
  { apply reachable_release, reachable_acquire, reachable_acquire,
      reachable_start. }
  split; [exact Hreach |].
  exact (reachable_never_writer_and_readers _ Hreach).
Defined.

(** C2.  When an acquire raises, whatever it raises and a [LockError] of
    a conflict in particular, the document is the one it was before the
    call: the registrations made in memory before the failure are not
    written. *)
Theorem acquire_all_or_nothing pid read write (doc : document) err :
  (acquire pid read write doc).2 = Raised err →
  (acquire pid read write doc).1 = doc.
Proof.
  rewrite acquire_run. destruct (load doc).2 as [lock|e]; [|done].
  by destruct ((_acquire_read pid read ;; _acquire_write pid write) lock)
    as [lock' [[]|e]].
Qed.

Lemma acquire_all_or_nothing_witness :
  let doc := Json (JDict [("data/foo", JDict [("writer", JInt 100)])]) in
  (acquire 200 ["data/bar"] ["data/foo"] doc).2
    = Raised (LockError (BusyWritten (Relpath "data/foo") 100))
  ∧ (acquire 200 ["data/bar"] ["data/foo"] doc).1 = doc.
Proof.
  assert ((acquire 200 ["data/bar"] ["data/foo"]
             (Json (JDict [("data/foo", JDict [("writer", JInt 100)])]))).2
          = Raised (LockError (BusyWritten (Relpath "data/foo") 100))) as Hrun.
  { vm_compute. reflexivity. }
  split; [exact Hrun |].
  exact (acquire_all_or_nothing _ _ _ _ _ Hrun).
Defined.

(** The table in memory did change before that failure: the caller was
    registered as a reader of [data/bar]. *)
Example acquire_discards_registrations :
  (_acquire_read 200 ["data/bar"] ;; _acquire_write 200 ["data/foo"])
    {["data/foo" := Entry (Some 100) None]}
  = (<["data/bar" := Entry None (Some [200])]>
       {["data/foo" := Entry (Some 100) None]},
     Raised (LockError (BusyWritten (Relpath "data/foo") 100))).
Proof. vm_compute. reflexivity. Qed.

(** C3.  Releasing a path that another process holds in the other mode is
    not a silent no-op.  Process 7 holds [data/foo] for writing and
    process 5 releases it as a read path: the subscript [["readers"]]
    raises [KeyError] and the call fails.  Process 7 holds it for reading
    and process 5 releases it as a write path: the subscript [["writer"]]
    raises [KeyError].  Both documents are ones the protocol writes. *)
Theorem release_in_other_mode_raises :
  let written := (acquire 7 [] ["data/foo"] Missing).1 in
  let read := (acquire 7 ["data/foo"] [] Missing).1 in
  (load written).2 = Returned {["data/foo" := Entry (Some 7) None]}
  ∧ release 5 ["data/foo"] [] written = (written, Raised (KeyError "readers"))
  ∧ (load read).2 = Returned {["data/foo" := Entry None (Some [7])]}
  ∧ release 5 [] ["data/foo"] read = (read, Raised (KeyError "writer")).
Proof. evaluate. Qed.

(** The same on the loops themselves, for any process and path. *)
Lemma release_read_of_written pid path (lock : LockState) w rest :
  lock !! path = Some (Entry (Some w) None) →
  _release_read pid (path :: rest) lock = (lock, Raised (KeyError "readers")).
Proof.
  intros H. unfold _release_read. rewrite for_each_cons.
  by rewrite (release_read_entry pid path lock _ H).
Qed.

Lemma release_write_of_read pid path (lock : LockState) rs rest :
  lock !! path = Some (Entry None (Some rs)) →
  _release_write pid (path :: rest) lock = (lock, Raised (KeyError "writer")).
Proof.
  intros H. unfold _release_write. rewrite for_each_cons.
  by rewrite (release_write_entry pid path lock _ H).
Qed.

(** ** When the loops of an acquire return *)

Lemma acquire_read_succeeds pid read (lock : LockState) :
  (∀ path e, path ∈ read → lock !! path = Some e →
     has_writer e = false ∧ is_Some (readers e)) →
  ∃ lock', _acquire_read pid read lock = (lock', Returned tt).
Proof.
  unfold _acquire_read. revert lock.
  induction read as [|p read IH]; intros lock Hok; [by exists lock |].
  rewrite for_each_cons.
  destruct (lock !! p) as [e|] eqn:H.
  - destruct (Hok p e) as [Hw [rs Hrs]]; [left | done |].
    rewrite (acquire_read_entry pid p lock e H Hw), Hrs.
    apply IH. intros path e' Hin. destruct (decide (path = p)) as [->|Hne].
    + rewrite lookup_insert_eq. intros [= <-]. split; [|by eexists].
      unfold has_writer in *. by cbn.
    + rewrite lookup_insert_ne by done. apply Hok. by right.
  - rewrite acquire_read_free by done.
    apply IH. intros path e' Hin. destruct (decide (path = p)) as [->|Hne].
    + rewrite lookup_insert_eq. intros [= <-]. split; [done | by eexists].
    + rewrite lookup_insert_ne by done. apply Hok. by right.
Qed.

Lemma acquire_write_succeeds pid write (lock : LockState) :
  NoDup write →
  (∀ path e, path ∈ write → lock !! path = Some e →
     has_writer e = false ∧ has_readers e = false) →
  ∃ lock', _acquire_write pid write lock = (lock', Returned tt).
Proof.
  unfold _acquire_write. intros Hnd. revert lock.
  induction Hnd as [|p write Hp Hnd IH]; intros lock Hok; [by exists lock |].
  rewrite for_each_cons.
  assert (acquire_write_path pid p lock
          = (<[p := Entry (Some pid) None]> lock, Returned tt)) as ->.
  { destruct (lock !! p) as [e|] eqn:H.
    - destruct (Hok p e) as [Hw Hr]; [left | done |].
      by rewrite (acquire_write_entry pid p lock e H), Hw, Hr.
    - by apply acquire_write_free. }
  apply IH. intros path e Hin. assert (path ≠ p) by (by intros ->).
  rewrite lookup_insert_ne by done. apply Hok. by right.
Qed.

(** From a table in which the paths asked for are free, an acquire of
    distinct write paths that are not read paths returns. *)
Lemma acquire_free_succeeds pid read write (lock : LockState) :
  (∀ path, path ∈ read ++ write → lock !! path = None) →
  NoDup write → (∀ path, path ∈ read → path ∉ write) →
  ∃ lock',
    (_acquire_read pid read ;; _acquire_write pid write) lock
      = (lock', Returned tt).
Proof.
  intros Hfree Hnd Hdisj. unfold bind.
  destruct (acquire_read_succeeds pid read lock) as [lockR HR].
  { intros path e Hin. rewrite Hfree; [done |]. apply elem_of_app. by left. }
  rewrite HR. apply acquire_write_succeeds; [done |].
  intros path e Hin. rewrite (acquire_read_returned _ _ _ _ HR path).
  assert (occurrences path read = 0%nat) as ->.
  { apply occurrences_0. intros ?. by apply (Hdisj path). }
  rewrite Hfree; [done |]. apply elem_of_app. by right.
Qed.

(** C4, as the code has it.  A document that is missing ([open] raises
    [FileNotFoundError]), or whose text [json.load] rejects with
    [JSONDecodeError], loads as the empty table without raising, and an
    acquire on it (of distinct write paths that are not also read paths)
    returns and rewrites the document with the dump of a table, which
    loads back as that table. *)
Theorem load_heals_missing_and_unparsable (doc : document) e pid read write :
  (json_load doc).2 = Raised e →
  e = FileNotFoundError ∨ e = JSONDecodeError →
  NoDup write →
  (∀ path, path ∈ read → path ∉ write) →
  load doc = (doc, Returned ∅)
  ∧ ∃ lock,
      acquire pid read write doc = (Json (to_json lock), Returned tt)
      ∧ load (Json (to_json lock)) = (Json (to_json lock), Returned lock).
Proof.
  intros Hread He Hnd Hdisj.
  assert (load doc = (doc, Returned ∅)) as Hload.
  { apply (load_caught doc e Hread). by destruct He as [->| ->]. }
  split; [done |].
  destruct (acquire_free_succeeds pid read write ∅) as [lock Hrun]; [|done..|].
  { intros ??. apply lookup_empty. }
  exists lock. rewrite acquire_run, Hload. cbn [snd]. rewrite Hrun.
  split; [done | apply load_to_json].
Qed.

Lemma load_heals_missing_and_unparsable_witness :
  load (NotJson "{not json") = (NotJson "{not json", Returned ∅)
  ∧ ∃ lock,
      acquire 200 ["data/foo"] ["data/bar"] (NotJson "{not json")
        = (Json (to_json lock), Returned tt)
      ∧ load (Json (to_json lock)) = (Json (to_json lock), Returned lock).
Proof.
  apply (load_heals_missing_and_unparsable
           (NotJson "{not json") JSONDecodeError 200 ["data/foo"] ["data/bar"]).
  - reflexivity.
  - right. reflexivity.
  - apply NoDup_singleton.
  - intros path Hin Hout.
    apply list_elem_of_singleton in Hin. apply list_elem_of_singleton in Hout.
    subst path. discriminate Hout.
Defined.

(** C4, as stated, fails on a file that is there and that is malformed in
    another way.  On JSON that parses but is not of the schema (a list, a
    path whose entry has an unknown key, a writer that is not an integer)
    the schema, applied outside the [try], raises [Invalid].  On a file
    whose reading raises anything but the two exceptions of the [except]
    clause (bytes that are no text: [UnicodeDecodeError]; brackets nested
    too deep: [RecursionError]) that exception leaves [_rwlock].  Nothing
    is acquired and nothing is rewritten. *)
Lemma load_raises_on_wrong_shape :
  let unknown := Json (JDict [("data/foo", JDict [("owner", JInt 100)])]) in
  let listed := Json (JList []) in
  let named := Json (JDict [("data/foo", JDict [("writer", JStr "me")])]) in
  load unknown = (unknown, Raised Invalid)
  ∧ acquire 200 ["data/foo"] [] unknown = (unknown, Raised Invalid)
  ∧ load listed = (listed, Raised Invalid)
  ∧ acquire 200 ["data/foo"] [] listed = (listed, Raised Invalid)
  ∧ load named = (named, Raised Invalid)
  ∧ acquire 200 ["data/foo"] [] named = (named, Raised Invalid)
  ∧ load (Failing UnicodeDecodeError)
    = (Failing UnicodeDecodeError, Raised UnicodeDecodeError)
  ∧ acquire 200 ["data/foo"] [] (Failing UnicodeDecodeError)
    = (Failing UnicodeDecodeError, Raised UnicodeDecodeError)
  ∧ acquire 200 ["data/foo"] [] (Failing RecursionError)
    = (Failing RecursionError, Raised RecursionError).
Proof. evaluate. Qed.

(** ** Conflicts met by the write loop *)

(** The write loop fails at the first path it reaches that has an entry
    with a non-empty writer or non-empty readers, and looks at the writer
    first. *)
Lemma acquire_write_conflict pid pre path post (lock lock1 : LockState) e :
  _acquire_write pid pre lock = (lock1, Returned tt) →
  lock1 !! path = Some e →
  has_writer e = true ∨ has_readers e = true →
  _acquire_write pid (pre ++ path :: post) lock =
    (lock1,
     Raised (conflict path
               (λ shown,
                  if has_writer e
                  then BusyWritten shown (default 0 (writer e))
                  else BusyRead shown (default [] (readers e))))).
Proof.
  unfold _acquire_write. intros Hpre H Hbusy.
  rewrite for_each_app, Hpre, for_each_cons.
  rewrite (acquire_write_entry pid path lock1 e H).
  destruct (has_writer e); [done |].
  by destruct Hbusy as [? | ->].
Qed.

(** C5, as the code has it.  The write loop stops at the first conflict.
    When it reaches a path other than the empty one (the read loop and
    the write paths before it having passed) whose entry has a non-empty
    writer, the acquire fails with the [LockError] made of that path and
    that writer, whatever the readers of the entry are; it is only with
    an empty writer and non-empty readers that it fails with the
    [LockError] made of the path and the list of readers. *)
Theorem acquire_write_reports_writer_before_readers
    pid read pre path post (doc : document) (lock lockR lock1 : LockState) e :
  (load doc).2 = Returned lock →
  _acquire_read pid read lock = (lockR, Returned tt) →
  _acquire_write pid pre lockR = (lock1, Returned tt) →
  lock1 !! path = Some e →
  path ≠ "" →
  (∀ w, writer e = Some w → w ≠ 0 →
     acquire pid read (pre ++ path :: post) doc
       = (doc, Raised (LockError (BusyWritten (Relpath path) w))))
  ∧ (∀ rs, has_writer e = false → readers e = Some rs → rs ≠ [] →
       acquire pid read (pre ++ path :: post) doc
         = (doc, Raised (LockError (BusyRead (Relpath path) rs)))).
Proof.
  intros Hload HR Hpre H Hpath. split.
  - intros w Hw Hn. rewrite acquire_run, Hload. unfold bind. rewrite HR.
    rewrite (acquire_write_conflict pid pre path post lockR lock1 e Hpre H).
    + rewrite conflict_LockError by done.
      unfold has_writer. rewrite Hw, bool_decide_true by done. done.
    + left. unfold has_writer. by rewrite Hw, bool_decide_true.
  - intros rs Hw Hrs Hn. rewrite acquire_run, Hload. unfold bind. rewrite HR.
    rewrite (acquire_write_conflict pid pre path post lockR lock1 e Hpre H).
    + rewrite conflict_LockError by done. by rewrite Hw, Hrs.
    + right. unfold has_readers. rewrite Hrs. by destruct rs.
Qed.

Lemma acquire_write_reports_writer_before_readers_witness :
  let both :=
    Json (JDict [("data/foo",
                  JDict [("writer", JInt 100);
                         ("readers", JList [JInt 300; JInt 400])])]) in
  let only_readers :=
    Json (JDict [("data/foo", JDict [("readers", JList [JInt 300; JInt 400])])]) in
  acquire 200 ["data/in"] ["data/out"; "data/foo"] both
    = (both, Raised (LockError (BusyWritten (Relpath "data/foo") 100)))
  ∧ acquire 200 ["data/in"] ["data/out"; "data/foo"] only_readers
    = (only_readers, Raised (LockError (BusyRead (Relpath "data/foo") [300; 400]))).
Proof.
  split.
  - refine (proj1 (acquire_write_reports_writer_before_readers
             200 ["data/in"] ["data/out"] "data/foo" [] _
             {["data/foo" := Entry (Some 100) (Some [300; 400])]}
             (<["data/in" := Entry None (Some [200])]>
                {["data/foo" := Entry (Some 100) (Some [300; 400])]})
             (<["data/out" := Entry (Some 200) None]>
                (<["data/in" := Entry None (Some [200])]>
                   {["data/foo" := Entry (Some 100) (Some [300; 400])]}))
             (Entry (Some 100) (Some [300; 400])) _ _ _ _ _) 100 _ _);
      [vm_compute; reflexivity | vm_compute; reflexivity
      | vm_compute; reflexivity | vm_compute; reflexivity
      | discriminate | reflexivity | discriminate].
  - refine (proj2 (acquire_write_reports_writer_before_readers
             200 ["data/in"] ["data/out"] "data/foo" [] _
             {["data/foo" := Entry None (Some [300; 400])]}
             (<["data/in" := Entry None (Some [200])]>
                {["data/foo" := Entry None (Some [300; 400])]})
             (<["data/out" := Entry (Some 200) None]>
                (<["data/in" := Entry None (Some [200])]>
                   {["data/foo" := Entry None (Some [300; 400])]}))
             (Entry None (Some [300; 400])) _ _ _ _ _) [300; 400] _ _ _);
      [vm_compute; reflexivity | vm_compute; reflexivity
      | vm_compute; reflexivity | vm_compute; reflexivity
      | discriminate | reflexivity | reflexivity | discriminate].
Defined.

(** C5, as stated, fails for a write path behind another conflict: with
    two write paths that both have a writer, the acquire fails with the
    [LockError] of the first one only, and the second path and its writer
    are named by no error. *)
Lemma acquire_write_reports_first_conflict_only :
  let doc :=
    Json (JDict [("data/a", JDict [("writer", JInt 7)]);
                 ("data/b", JDict [("writer", JInt 8)])]) in
  (load doc).2
    = Returned (<["data/b" := Entry (Some 8) None]>
                  {["data/a" := Entry (Some 7) None]})
  ∧ has_writer (Entry (Some 8) None) = true
  ∧ acquire 100 [] ["data/a"; "data/b"] doc
    = (doc, Raised (LockError (BusyWritten (Relpath "data/a") 7)))
  ∧ LockError (BusyWritten (Relpath "data/a") 7)
    ≠ LockError (BusyWritten (Relpath "data/b") 8).
Proof.
  cbv zeta. repeat apply conj; try (vm_compute; reflexivity). discriminate.
Qed.

(** ** Registering a reader *)

(** For a read path that has no entry, or whose entry has a list of
    readers and no non-empty writer, the turn of the read loop returns:
    the path then has an entry with a list of readers, which is the old
    list with the caller added at its end; the writer key of the entry
    and every other path are as they were. *)
Lemma acquire_read_registers_caller pid path rest (lock : LockState) :
  (lock !! path = None
   ∨ ∃ e, lock !! path = Some e ∧ has_writer e = false ∧ is_Some (readers e)) →
  acquire_read_path pid path lock =
    (<[path := Entry (lock !! path ≫= writer)
                     (Some (readers_of lock path ++ [pid]))]> lock,
     Returned tt)
  ∧ _acquire_read pid (path :: rest) lock =
      _acquire_read pid rest
        (<[path := Entry (lock !! path ≫= writer)
                         (Some (readers_of lock path ++ [pid]))]> lock).
Proof.
  intros Hok.
  assert (acquire_read_path pid path lock =
            (<[path := Entry (lock !! path ≫= writer)
                             (Some (readers_of lock path ++ [pid]))]> lock,
             Returned tt)) as Hstep.
  { unfold readers_of. destruct Hok as [H|(e & H & Hw & rs & Hrs)].
    - rewrite H. by apply acquire_read_free.
    - rewrite (acquire_read_entry pid path lock e H Hw), H. cbn.
      by rewrite Hrs. }
  split; [done |]. unfold _acquire_read. by rewrite for_each_cons, Hstep.
Qed.

Lemma acquire_read_registers_caller_witness :
  let lock : LockState := {["data/foo" := Entry None (Some [100])]} in
  acquire_read_path 200 "data/foo" lock =
    (<["data/foo" := Entry None (Some [100; 200])]> lock, Returned tt)
  ∧ _acquire_read 200 ["data/foo"; "data/bar"] lock =
      _acquire_read 200 ["data/bar"]
        (<["data/foo" := Entry None (Some [100; 200])]> lock).
Proof.
  assert (({["data/foo" := Entry None (Some [100])]} : LockState)
            !! "data/foo" = None
          ∨ ∃ e, ({["data/foo" := Entry None (Some [100])]} : LockState)
                   !! "data/foo" = Some e
                 ∧ has_writer e = false ∧ is_Some (readers e)) as Hok.
  { right. exists (Entry None (Some [100])).
    split; [vm_compute; reflexivity |].
    split; [reflexivity |]. exists [100]. reflexivity. }
  exact (acquire_read_registers_caller 200 "data/foo" ["data/bar"]
           {["data/foo" := Entry None (Some [100])]} Hok).
Defined.

(** C6.  The read loop does not ensure a list of readers on an entry that
    is there.  The schema admits an entry with neither key and an entry
    with writer [0]; neither has a non-empty writer, and on both the
    subscript [["readers"]] raises [KeyError] where a list was to be
    created (as the [else] branch does for a path without entry) and the
    caller added to it: the acquire fails. *)
Theorem acquire_read_raises_without_readers_key :
  let empty := Json (JDict [("data/foo", JDict [])]) in
  let zero := Json (JDict [("data/foo", JDict [("writer", JInt 0)])]) in
  (load empty).2 = Returned {["data/foo" := Entry None None]}
  ∧ has_writer (Entry None None) = false
  ∧ acquire_read_path 100 "data/foo" {["data/foo" := Entry None None]}
    = ({["data/foo" := Entry None None]}, Raised (KeyError "readers"))
  ∧ acquire 100 ["data/foo"] [] empty = (empty, Raised (KeyError "readers"))
  ∧ (load zero).2 = Returned {["data/foo" := Entry (Some 0) None]}
  ∧ has_writer (Entry (Some 0) None) = false
  ∧ acquire 100 ["data/foo"] [] zero = (zero, Raised (KeyError "readers")).
Proof. evaluate. Qed.

(** ** Acquire, then the matching release *)

(** A path that the read loop has registered is not a write path of an
    acquire that returns. *)
Lemma acquire_read_write_disjoint pid read write (lock lockR lock' : LockState) :
  _acquire_read pid read lock = (lockR, Returned tt) →
  _acquire_write pid write lockR = (lock', Returned tt) →
  ∀ path, path ∈ read → path ∉ write.
Proof.
  intros HR HW path Hin Hout.
  destruct (occurrences_pos path read Hin) as [n Hn].
  pose proof (acquire_read_returned _ _ _ _ HR path) as Hl. rewrite Hn in Hl.
  destruct (acquire_write_returned _ _ _ _ HW) as [_ Hfree].
  specialize (Hfree path _ Hout Hl). unfold has_readers in Hfree. cbn in Hfree.
  by destruct (readers_of lock path).
Qed.

Lemma acquire_release_table pid read write (lock lock1 : LockState) :
  (∀ path, path ∈ read ++ write → lock !! path = None) →
  (_acquire_read pid read ;; _acquire_write pid write) lock
    = (lock1, Returned tt) →
  (_release_write pid write ;; _release_read pid read) lock1
    = (lock, Returned tt).
Proof.
  intros Hfree. unfold bind.
  destruct (_acquire_read pid read lock) as [lockR [[]|e]] eqn:HR; [|done].
  intros HW.
  pose proof (acquire_read_write_disjoint _ _ _ _ _ _ HR HW) as Hdisj.
  pose proof (acquire_read_returned _ _ _ _ HR) as HlookR.
  destruct (acquire_write_returned _ _ _ _ HW) as [Hlook1 _].
  destruct (release_write_own pid write lock1) as (lock2 & -> & Hlook2).
  { intros path Hin. left. by rewrite Hlook1, bool_decide_true. }
  assert (∀ path, lock2 !! path = lockR !! path) as Hback.
  { intros path. rewrite Hlook2, Hlook1. case_bool_decide as Hin; [|done].
    rewrite HlookR.
    assert (occurrences path read = 0%nat) as ->.
    { apply occurrences_0. intros ?. by apply (Hdisj path). }
    symmetry. apply Hfree, elem_of_app. by right. }
  destruct (release_read_own pid read lock2) as (lock3 & -> & Hlook3).
  { intros path Hin. rewrite Hback, HlookR.
    destruct (occurrences_pos path read Hin) as [n ->].
    unfold readers_of. rewrite Hfree; [done |]. apply elem_of_app. by left. }
  f_equal. apply map_eq. intros path. rewrite Hlook3, Hback, HlookR.
  case_bool_decide as Hin.
  - symmetry. apply Hfree, elem_of_app. by left.
  - apply occurrences_0 in Hin. by rewrite Hin.
Qed.

(** C7.  From a document whose table has no entry for any of the read and
    write paths, an acquire that returns followed by the release of the
    same paths by the same process returns and leaves the dump of the
    very table the document had: every entry made by the acquire is
    pruned, so none of those paths has an entry afterwards, and the rest
    is untouched. *)
Theorem acquire_release_restores pid read write (doc : document) (lock : LockState) :
  (load doc).2 = Returned lock →
  (∀ path, path ∈ read ++ write → lock !! path = None) →
  (acquire pid read write doc).2 = Returned tt →
  release pid read write (acquire pid read write doc).1
    = (Json (to_json lock), Returned tt)
  ∧ (load (Json (to_json lock))).2 = Returned lock
  ∧ ∀ path, path ∈ read ++ write →
      ∀ after, (load (Json (to_json lock))).2 = Returned after →
               after !! path = None.
Proof.
  intros Hload Hfree. rewrite acquire_run, Hload.
  destruct ((_acquire_read pid read ;; _acquire_write pid write) lock)
    as [lock1 [[]|e]] eqn:Hacq; [|done].
  intros _. cbn [fst]. rewrite release_run, load_to_json. cbn [snd].
  rewrite (acquire_release_table pid read write lock lock1 Hfree Hacq).
  rewrite !load_to_json. cbn [snd].
  split; [done |]. split; [done |].
  intros path Hin after [= <-]. by apply Hfree.
Qed.

Lemma acquire_release_restores_witness :
  let doc := Json (JDict [("data/kept", JDict [("readers", JList [JInt 300])])]) in
  let lock : LockState := {["data/kept" := Entry None (Some [300])]} in
  release 100 ["data/in"; "data/kept2"; "data/in"] ["data/out"]
    (acquire 100 ["data/in"; "data/kept2"; "data/in"] ["data/out"] doc).1
    = (Json (to_json lock), Returned tt)
  ∧ (load (Json (to_json lock))).2 = Returned lock
  ∧ ∀ path, path ∈ ["data/in"; "data/kept2"; "data/in"] ++ ["data/out"] →
      ∀ after, (load (Json (to_json lock))).2 = Returned after →
               after !! path = None.
Proof.
  refine (acquire_release_restores 100 ["data/in"; "data/kept2"; "data/in"]
            ["data/out"]
            (Json (JDict [("data/kept", JDict [("readers", JList [JInt 300])])]))
            {["data/kept" := Entry None (Some [300])]} _ _ _).
  - vm_compute. reflexivity.
  - intros path Hin.
    repeat (apply elem_of_cons in Hin as [->|Hin]; [vm_compute; reflexivity |]).
    by apply elem_of_nil in Hin.
  - vm_compute. reflexivity.
Defined.

(** ** Repeated registration *)

(** C8, as the code has it.  When the read loop of an acquire returns (no
    read path at all has raised), a path that occurs [k] times among the
    read paths has the caller [k] times at the end of its list of readers,
    after the readers it had; and that is the list the write loop leaves
    there when it returns too, which is then the one written to the
    document. *)
Theorem acquire_read_not_deduplicated
    pid read path (lock lockR : LockState) :
  _acquire_read pid read lock = (lockR, Returned tt) →
  path ∈ read →
  lockR !! path ≫= readers
    = Some (readers_of lock path ++ replicate (occurrences path read) pid)
  ∧ ∀ write lock',
      _acquire_write pid write lockR = (lock', Returned tt) →
      lock' !! path ≫= readers
        = Some (readers_of lock path ++ replicate (occurrences path read) pid).
Proof.
  intros HR Hin.
  assert (lockR !! path ≫= readers
          = Some (readers_of lock path
                  ++ replicate (occurrences path read) pid)) as Hreg.
  { rewrite (acquire_read_returned _ _ _ _ HR path).
    by destruct (occurrences_pos path read Hin) as [n ->]. }
  split; [done |]. intros write lock' HW.
  destruct (acquire_write_returned _ _ _ _ HW) as [Hlook _].
  rewrite Hlook, bool_decide_false; [done |].
  by apply (acquire_read_write_disjoint _ _ _ _ _ _ HR HW).
Qed.

Lemma acquire_read_not_deduplicated_witness :
  let lock : LockState := {["data/foo" := Entry None (Some [100])]} in
  let lockR : LockState :=
    <["data/bar" := Entry None (Some [200])]>
      {["data/foo" := Entry None (Some [100; 200; 200; 200])]} in
  lockR !! "data/foo" ≫= readers = Some ([100] ++ [200; 200; 200])
  ∧ ∀ write lock',
      _acquire_write 200 write lockR = (lock', Returned tt) →
      lock' !! "data/foo" ≫= readers = Some ([100] ++ [200; 200; 200]).
Proof.
  assert (_acquire_read 200 ["data/foo"; "data/bar"; "data/foo"; "data/foo"]
            {["data/foo" := Entry None (Some [100])]}
          = (<["data/bar" := Entry None (Some [200])]>
               {["data/foo" := Entry None (Some [100; 200; 200; 200])]},
             Returned tt)) as HR.
  { vm_compute. reflexivity. }
  assert ("data/foo" ∈ ["data/foo"; "data/bar"; "data/foo"; "data/foo"])
    as Hin by left.
  exact (acquire_read_not_deduplicated 200 _ "data/foo" _ _ HR Hin).
Defined.

(** C8, as stated, fails when another read path stops the loop.  The
    path [data/foo] is given twice and neither occurrence meets a writer,
    but [data/bar] between them has one: the loop raises there, the caller
    is in the list of [data/foo] once in memory, and not at all in the
    document, which is not rewritten. *)
Lemma acquire_read_stops_between_occurrences :
  let doc := Json (JDict [("data/bar", JDict [("writer", JInt 7)])]) in
  let lock : LockState := {["data/bar" := Entry (Some 7) None]} in
  (load doc).2 = Returned lock
  ∧ occurrences "data/foo" ["data/foo"; "data/bar"; "data/foo"] = 2%nat
  ∧ lock !! "data/foo" = None
  ∧ _acquire_read 100 ["data/foo"; "data/bar"; "data/foo"] lock
    = (<["data/foo" := Entry None (Some [100])]> lock,
       Raised (LockError (BusyWritten (Relpath "data/bar") 7)))
  ∧ acquire 100 ["data/foo"; "data/bar"; "data/foo"] [] doc
    = (doc, Raised (LockError (BusyWritten (Relpath "data/bar") 7))).
Proof. evaluate. Qed.

(** ** One path asked for reading and for writing *)

(** When every entry the read loop can meet has a non-empty writer or a
    list of readers, and the empty path is not asked for, the loop raises
    nothing but a writer conflict. *)
Lemma acquire_read_raised pid read (lock lock' : LockState) err :
  "" ∉ read →
  (∀ path e, path ∈ read → lock !! path = Some e →
     has_writer e = true ∨ is_Some (readers e)) →
  _acquire_read pid read lock = (lock', Raised err) →
  is_lock_error err = true.
Proof.
  unfold _acquire_read. revert lock.
  induction read as [|p read IH]; intros lock Hpaths Hok; [done |].
  apply not_elem_of_cons in Hpaths as [Hp Hpaths].
  rewrite for_each_cons.
  assert (∀ e', (∀ path e, path ∈ p :: read → lock !! path = Some e →
                   has_writer e = true ∨ is_Some (readers e)) →
                is_Some (readers e') →
                ∀ path e, path ∈ read → <[p := e']> lock !! path = Some e →
                  has_writer e = true ∨ is_Some (readers e)) as Hnext.
  { intros e' Hall He' path e Hin. destruct (decide (path = p)) as [->|Hne].
    - rewrite lookup_insert_eq. intros [= <-]. by right.
    - rewrite lookup_insert_ne by done. apply Hall. by right. }
  destruct (lock !! p) as [e|] eqn:H.
  - destruct (has_writer e) eqn:Hw.
    + unfold has_writer in Hw. destruct (writer e) as [w|] eqn:Ew; [|done].
      apply bool_decide_eq_true in Hw.
      rewrite (acquire_read_written pid p lock e w H Ew Hw).
      rewrite conflict_LockError by done. by intros [= <- <-].
    + rewrite (acquire_read_entry pid p lock e H Hw).
      destruct (Hok p e) as [?|[rs Hrs]]; [left | done | congruence |].
      rewrite Hrs. apply IH; [done |]. apply Hnext; [done | by eexists].
  - rewrite acquire_read_free by done.
    apply IH; [done |]. apply Hnext; [done | by eexists].
Qed.

(** C10, as the code has it.  An acquire that asks for one path both for
    reading and for writing, the path being free in the table of the
    document, never returns and leaves the document as it was.  When no
    path asked for is the empty one and every entry of a read path has a
    non-empty writer or a list of readers, it fails with a [LockError].
    When the read loop returns, it has registered the caller as the only
    reader of the path, once per occurrence; and when the write loop then
    reaches the path, which is not the empty one, the [LockError] is the
    one made of the path and of that list of readers, the caller's own
    process identifier. *)
Theorem acquire_read_and_write_of_one_path_fails
    pid read write path (doc : document) (lock : LockState) :
  (load doc).2 = Returned lock →
  path ∈ read → path ∈ write → lock !! path = None →
  (∃ err, acquire pid read write doc = (doc, Raised err))
  ∧ ("" ∉ read ++ write →
     (∀ p e, p ∈ read → lock !! p = Some e →
        has_writer e = true ∨ is_Some (readers e)) →
     ∃ info, acquire pid read write doc = (doc, Raised (LockError info)))
  ∧ (∀ lockR,
       _acquire_read pid read lock = (lockR, Returned tt) →
       lockR !! path
         = Some (Entry None (Some (replicate (occurrences path read) pid)))
       ∧ pid ∈ replicate (occurrences path read) pid
       ∧ ∀ pre post lock1,
           write = pre ++ path :: post →
           _acquire_write pid pre lockR = (lock1, Returned tt) →
           path ≠ "" →
           acquire pid read write doc
             = (doc, Raised (LockError
                               (BusyRead (Relpath path)
                                  (replicate (occurrences path read) pid))))).
Proof.
  intros Hload Hin Hout Hfree.
  destruct (occurrences_pos path read Hin) as [n Hn].
  assert (∀ lockR, _acquire_read pid read lock = (lockR, Returned tt) →
            lockR !! path
              = Some (Entry None (Some (replicate (occurrences path read) pid))))
    as Hreg.
  { intros lockR HR. rewrite (acquire_read_returned _ _ _ _ HR path), Hn.
    unfold readers_of. by rewrite Hfree. }
  assert (∀ lockR, _acquire_read pid read lock = (lockR, Returned tt) →
            ∃ lock' err,
              _acquire_write pid write lockR = (lock', Raised err)
              ∧ ("" ∉ write → is_lock_error err = true))
    as Hwrite.
  { intros lockR HR.
    destruct (_acquire_write pid write lockR) as [lock' [[]|err]] eqn:HW.
    - by destruct (acquire_read_write_disjoint _ _ _ _ _ _ HR HW path Hin).
    - exists lock', err. split; [done |]. intros Hpaths.
      by apply (acquire_write_raised pid write lockR lock'). }
  rewrite acquire_run, Hload. unfold bind. split; [|split].
  - destruct (_acquire_read pid read lock) as [lockR [[]|err]] eqn:HR;
      [|by eexists].
    destruct (Hwrite lockR eq_refl) as (lock' & err & -> & _). by eexists.
  - intros [Hr Hw]%not_elem_of_app Hok.
    destruct (_acquire_read pid read lock) as [lockR [[]|err]] eqn:HR.
    + destruct (Hwrite lockR eq_refl) as (lock' & err & -> & Herr).
      specialize (Herr Hw). destruct err; try done. by eexists.
    + pose proof (acquire_read_raised _ _ _ _ _ Hr Hok HR) as Herr.
      destruct err; try done. by eexists.
  - intros lockR HR. rewrite HR. split; [by apply Hreg |].
    split; [rewrite Hn; left |].
    intros pre post lock1 -> Hpre Hpath.
    destruct (acquire_write_returned _ _ _ _ Hpre) as [Hlook Hnone].
    assert (path ∉ pre) as Hnin.
    { intros Hpin. specialize (Hnone path _ Hpin (Hreg lockR HR)).
      unfold has_readers in Hnone. cbn in Hnone. by rewrite Hn in Hnone. }
    assert (lock1 !! path
            = Some (Entry None (Some (replicate (occurrences path read) pid))))
      as H1.
    { rewrite Hlook, bool_decide_false by done. by apply Hreg. }
    rewrite (acquire_write_conflict pid pre path post lockR lock1 _ Hpre H1).
    + by rewrite conflict_LockError.
    + right. unfold has_readers. cbn. by rewrite Hn.
Qed.

Lemma acquire_read_and_write_of_one_path_fails_witness :
  let doc := Json (JDict [("data/bar", JDict [("readers", JList [JInt 300])])]) in
  let lock : LockState := {["data/bar" := Entry None (Some [300])]} in
  let read := ["data/bar"; "data/foo"] in
  let write := ["data/out"; "data/foo"] in
  (∃ err, acquire 100 read write doc = (doc, Raised err))
  ∧ ("" ∉ read ++ write →
     (∀ p e, p ∈ read → lock !! p = Some e →
        has_writer e = true ∨ is_Some (readers e)) →
     ∃ info, acquire 100 read write doc = (doc, Raised (LockError info)))
  ∧ (∀ lockR,
       _acquire_read 100 read lock = (lockR, Returned tt) →
       lockR !! "data/foo"
         = Some (Entry None (Some (replicate (occurrences "data/foo" read) 100)))
       ∧ 100 ∈ replicate (occurrences "data/foo" read) 100
       ∧ ∀ pre post lock1,
           write = pre ++ "data/foo" :: post →
           _acquire_write 100 pre lockR = (lock1, Returned tt) →
           "data/foo" ≠ "" →
           acquire 100 read write doc
             = (doc, Raised (LockError
                               (BusyRead (Relpath "data/foo")
                                  (replicate (occurrences "data/foo" read) 100))))).
Proof.
  refine (acquire_read_and_write_of_one_path_fails 100
            ["data/bar"; "data/foo"] ["data/out"; "data/foo"] "data/foo"
            (Json (JDict [("data/bar", JDict [("readers", JList [JInt 300])])]))
            {["data/bar" := Entry None (Some [300])]} _ _ _ _).
  - vm_compute. reflexivity.
  - right. left.
  - right. left.
  - vm_compute. reflexivity.
Defined.

(** What that acquire does, run. *)
Example same_path_for_reading_and_writing :
  acquire 100 ["data/foo"] ["data/foo"] Missing
    = (Missing, Raised (LockError (BusyRead (Relpath "data/foo") [100]))).
Proof. evaluate. Qed.

(** C10, as stated, fails when another path conflicts first.  The path
    [data/foo] is free and asked for both ways, but the read path before
    it has a writer: the acquire fails in the read loop, which has not
    registered the caller for [data/foo], and the [LockError] names
    [data/bar] and its writer 7, not the caller.  The same happens in the
    write loop when a write path before [data/foo] is held. *)
Lemma acquire_of_one_path_twice_reports_other_conflict :
  let doc := Json (JDict [("data/bar", JDict [("writer", JInt 7)])]) in
  let lock : LockState := {["data/bar" := Entry (Some 7) None]} in
  (load doc).2 = Returned lock
  ∧ lock !! "data/foo" = None
  ∧ _acquire_read 100 ["data/bar"; "data/foo"] lock
    = (lock, Raised (LockError (BusyWritten (Relpath "data/bar") 7)))
  ∧ acquire 100 ["data/bar"; "data/foo"] ["data/foo"] doc
    = (doc, Raised (LockError (BusyWritten (Relpath "data/bar") 7)))
  ∧ acquire 100 ["data/foo"] ["data/bar"; "data/foo"] doc
    = (doc, Raised (LockError (BusyWritten (Relpath "data/bar") 7))).
Proof. evaluate. Qed.

(** The empty path cannot be named in a message: [relpath] refuses it, and
    its [ValueError] is raised in the place of the [LockError]. *)
Example conflict_on_the_empty_path :
  acquire 100 [""] [""] Missing
    = (Missing, Raised (ValueError "no path specified")).
Proof. evaluate. Qed.

End RWLockProps.


(* ===================================================================== *)
(** * The protocol seen by its callers *)
(* ===================================================================== *)

Module RWLockProtocol.
Import RWLock Release RWLockProps.

(** ** What a returning acquire has found and what it leaves *)

(** The read loop returns only when no read path had a non-empty writer
    and each one with an entry had a list of readers. *)
Lemma acquire_read_returned_found pid read (lock lockR : LockState) :
  _acquire_read pid read lock = (lockR, Returned tt) →
  ∀ path e, path ∈ read → lock !! path = Some e →
    has_writer e = false ∧ is_Some (readers e).
Proof.
  unfold _acquire_read. revert lock.
  induction read as [|p read IH]; intros lock.
  - intros _ ?? Hin. by apply elem_of_nil in Hin.
  - rewrite for_each_cons.
    destruct (acquire_read_path pid p lock) as [lock1 [[]|e]] eqn:E; [|done].
    apply acquire_read_path_returned in E as [-> Hp].
    intros Hrest path e Hin Hl. destruct (decide (path = p)) as [->|Hne].
    + by apply Hp.
    + apply elem_of_cons in Hin as [?|Hin]; [done |].
      apply (IH _ Hrest path e Hin). by rewrite lookup_insert_ne.
Qed.

(** The write loop returns only when no write path had a non-empty writer
    or non-empty readers. *)
Lemma acquire_write_returned_found pid write (lock lock' : LockState) :
  _acquire_write pid write lock = (lock', Returned tt) →
  ∀ path e, path ∈ write → lock !! path = Some e →
    has_writer e = false ∧ has_readers e = false.
Proof.
  unfold _acquire_write. revert lock.
  induction write as [|p write IH]; intros lock.
  - intros _ ?? Hin. by apply elem_of_nil in Hin.
  - rewrite for_each_cons.
    destruct (acquire_write_path pid p lock) as [lock1 [[]|e]] eqn:E; [|done].
    apply acquire_write_path_returned in E as [-> Hp].
    intros Hrest path e Hin Hl. destruct (decide (path = p)) as [->|Hne].
    + by apply Hp.
    + apply elem_of_cons in Hin as [?|Hin]; [done |].
      apply (IH _ Hrest path e Hin). by rewrite lookup_insert_ne.
Qed.

(** A process other than process 0 that gets its write paths has given
    each of them once. *)
Lemma acquire_write_returned_NoDup pid write (lock lock' : LockState) :
  pid ≠ 0 →
  _acquire_write pid write lock = (lock', Returned tt) → NoDup write.
Proof.
  intros Hpid. unfold _acquire_write. revert lock.
  induction write as [|p write IH]; intros lock; [constructor |].
  rewrite for_each_cons.
  destruct (acquire_write_path pid p lock) as [lock1 [[]|e]] eqn:E; [|done].
  apply acquire_write_path_returned in E as [-> _].
  intros Hrest. constructor; [|by apply (IH _ Hrest)].
  intros Hin.
  destruct (acquire_write_returned_found _ _ _ _ Hrest p
              (Entry (Some pid) None) Hin) as [Hw _].
  { apply lookup_insert_eq. }
  unfold has_writer in Hw. cbn in Hw. by apply bool_decide_eq_false in Hw.
Qed.

(** The table a returning acquire leaves, path by path. *)
Lemma acquire_table pid read write (lock lock' : LockState) :
  (_acquire_read pid read ;; _acquire_write pid write) lock
    = (lock', Returned tt) →
  ∀ path,
    lock' !! path =
      if bool_decide (path ∈ write) then Some (Entry (Some pid) None)
      else match occurrences path read with
           | O => lock !! path
           | S _ as k =>
               Some (Entry (lock !! path ≫= writer)
                           (Some (readers_of lock path ++ replicate k pid)))
           end.
Proof.
  unfold bind.
  destruct (_acquire_read pid read lock) as [lockR [[]|e]] eqn:HR; [|done].
  intros HW path.
  destruct (acquire_write_returned _ _ _ _ HW) as [-> _].
  by rewrite (acquire_read_returned _ _ _ _ HR path).
Qed.

(** ** Who is excluded *)

Lemma acquire_raises_on_written pid read write path (lock : LockState) e :
  lock !! path = Some e → has_writer e = true →
  path ∈ read ++ write →
  ∃ lock' err,
    (_acquire_read pid read ;; _acquire_write pid write) lock
      = (lock', Raised err).
Proof.
  intros H Hw Hin. unfold bind.
  destruct (_acquire_read pid read lock) as [lockR [[]|err]] eqn:HR;
    [|by eexists _, _].
  destruct (decide (path ∈ read)) as [Hr|Hr].
  - destruct (acquire_read_returned_found _ _ _ _ HR path e Hr H). congruence.
  - apply elem_of_app in Hin as [?|Hin]; [done |].
    destruct (_acquire_write pid write lockR) as [lock' [[]|err]] eqn:HW;
      [|by eexists _, _].
    destruct (acquire_write_returned_found _ _ _ _ HW path e Hin); [|congruence].
    rewrite (acquire_read_returned _ _ _ _ HR path).
    apply occurrences_0 in Hr. by rewrite Hr.
Qed.

Lemma acquire_raises_on_read pid read write path (lock : LockState) e :
  lock !! path = Some e → has_readers e = true →
  path ∈ write →
  ∃ lock' err,
    (_acquire_read pid read ;; _acquire_write pid write) lock
      = (lock', Raised err).
Proof.
  intros H Hrs Hin. unfold bind.
  destruct (_acquire_read pid read lock) as [lockR [[]|err]] eqn:HR;
    [|by eexists _, _].
  destruct (_acquire_write pid write lockR) as [lock' [[]|err]] eqn:HW;
    [|by eexists _, _].
  destruct (acquire_write_returned _ _ _ _ HW) as [_ Hfree].
  pose proof (acquire_read_returned _ _ _ _ HR path) as Hl.
  unfold has_readers in Hrs.
  destruct (readers e) as [[|r rs]|] eqn:Er; try done.
  destruct (occurrences path read) as [|n].
  - rewrite H in Hl. specialize (Hfree path e Hin Hl).
    unfold has_readers in Hfree. by rewrite Er in Hfree.
  - specialize (Hfree path _ Hin Hl). unfold has_readers, readers_of in Hfree.
    rewrite H in Hfree. cbn in Hfree. by rewrite Er in Hfree.
Qed.

Lemma acquire_raised_run pid read write (doc : document) (lock lock' : LockState) err :
  (load doc).2 = Returned lock →
  (_acquire_read pid read ;; _acquire_write pid write) lock
    = (lock', Raised err) →
  acquire pid read write doc = (doc, Raised err).
Proof. intros Hload Hrun. by rewrite acquire_run, Hload, Hrun. Qed.

Lemma acquire_returned_run pid read write (doc : document) (lock : LockState) :
  (load doc).2 = Returned lock →
  (acquire pid read write doc).2 = Returned tt →
  ∃ lock',
    (_acquire_read pid read ;; _acquire_write pid write) lock
      = (lock', Returned tt)
    ∧ acquire pid read write doc = (Json (to_json lock'), Returned tt).
Proof.
  intros Hload. rewrite acquire_run, Hload.
  destruct ((_acquire_read pid read ;; _acquire_write pid write) lock)
    as [lock' [[]|e]]; [|done].
  intros _. by exists lock'.
Qed.

(** X1.  A path whose entry has a non-empty writer is given to nobody: an
    acquire that asks for it, for reading or for writing, by any process
    (the writer itself included), raises and leaves the document as it
    was. *)
Theorem acquire_of_written_path_fails
    pid read write path (doc : document) (lock : LockState) e :
  (load doc).2 = Returned lock →
  lock !! path = Some e → has_writer e = true →
  path ∈ read ++ write →
  ∃ err, acquire pid read write doc = (doc, Raised err).
Proof.
  intros Hload H Hw Hin.
  destruct (acquire_raises_on_written pid read write path lock e H Hw Hin)
    as (lock' & err & Hrun).
  exists err. by apply (acquire_raised_run _ _ _ _ lock lock').
Qed.

Lemma acquire_of_written_path_fails_witness :
  let doc := Json (JDict [("data/foo", JDict [("writer", JInt 100)])]) in
  ∃ err, acquire 100 ["data/bar"; "data/foo"] ["data/out"] doc
         = (doc, Raised err).
Proof.
  refine (acquire_of_written_path_fails 100 ["data/bar"; "data/foo"]
            ["data/out"] "data/foo"
            (Json (JDict [("data/foo", JDict [("writer", JInt 100)])]))
            {["data/foo" := Entry (Some 100) None]}
            (Entry (Some 100) None) _ _ _ _).
  - vm_compute. reflexivity.
  - vm_compute. reflexivity.
  - reflexivity.
  - right. left.
Defined.

(** X2.  A path whose entry has non-empty readers is given for writing to
    nobody, its readers included (a read hold is never upgraded): an
    acquire with that path among its write paths raises and leaves the
    document as it was. *)
Theorem acquire_write_of_read_path_fails
    pid read write path (doc : document) (lock : LockState) e :
  (load doc).2 = Returned lock →
  lock !! path = Some e → has_readers e = true →
  path ∈ write →
  ∃ err, acquire pid read write doc = (doc, Raised err).
Proof.
  intros Hload H Hrs Hin.
  destruct (acquire_raises_on_read pid read write path lock e H Hrs Hin)
    as (lock' & err & Hrun).
  exists err. by apply (acquire_raised_run _ _ _ _ lock lock').
Qed.

Lemma acquire_write_of_read_path_fails_witness :
  let doc := Json (JDict [("data/foo", JDict [("readers", JList [JInt 100])])]) in
  ∃ err, acquire 100 [] ["data/foo"] doc = (doc, Raised err).
Proof.
  refine (acquire_write_of_read_path_fails 100 [] ["data/foo"] "data/foo"
            (Json (JDict [("data/foo", JDict [("readers", JList [JInt 100])])]))
            {["data/foo" := Entry None (Some [100])]}
            (Entry None (Some [100])) _ _ _ _).
  - vm_compute. reflexivity.
  - vm_compute. reflexivity.
  - reflexivity.
  - left.
Defined.

(** X3.  When an acquire returns, the document is the dump of a table in
    which each write path has the caller as its writer and nothing else,
    each read path has its former entry with the caller added to the
    readers once per occurrence, and every path not asked for has the
    entry it had. *)
Theorem acquire_returned_table
    pid read write (doc : document) (lock : LockState) :
  (load doc).2 = Returned lock →
  (acquire pid read write doc).2 = Returned tt →
  ∃ lock',
    (acquire pid read write doc).1 = Json (to_json lock')
    ∧ ∀ path,
        lock' !! path =
          if bool_decide (path ∈ write) then Some (Entry (Some pid) None)
          else if bool_decide (path ∈ read)
          then Some (Entry (lock !! path ≫= writer)
                           (Some (readers_of lock path
                                  ++ replicate (occurrences path read) pid)))
          else lock !! path.
Proof.
  intros Hload. rewrite acquire_run, Hload.
  destruct ((_acquire_read pid read ;; _acquire_write pid write) lock)
    as [lock' [[]|e]] eqn:Hacq; [|done].
  intros _. exists lock'. split; [done |]. intros path.
  rewrite (acquire_table _ _ _ _ _ Hacq path).
  case_bool_decide; [done |]. case_bool_decide as Hr.
  - by destruct (occurrences_pos path read Hr) as [n ->].
  - apply occurrences_0 in Hr. by rewrite Hr.
Qed.

Lemma acquire_returned_table_witness :
  let doc := Json (JDict [("data/foo", JDict [("readers", JList [JInt 100])])]) in
  let lock : LockState := {["data/foo" := Entry None (Some [100])]} in
  ∃ lock',
    (acquire 200 ["data/foo"] ["data/out"] doc).1 = Json (to_json lock')
    ∧ ∀ path,
        lock' !! path =
          if bool_decide (path ∈ ["data/out"])
          then Some (Entry (Some 200) None)
          else if bool_decide (path ∈ ["data/foo"])
          then Some (Entry (lock !! path ≫= writer)
                           (Some (readers_of lock path
                                  ++ replicate (occurrences path ["data/foo"]) 200)))
          else lock !! path.
Proof.
  refine (acquire_returned_table 200 ["data/foo"] ["data/out"]
            (Json (JDict [("data/foo", JDict [("readers", JList [JInt 100])])]))
            {["data/foo" := Entry None (Some [100])]} _ _);
    vm_compute; reflexivity.
Defined.

(** X4.  A process other than process 0 that gives a write path twice in
    one acquire does not get it: the second turn finds the writer the
    first one has set, and the call raises and writes nothing. *)
Theorem acquire_of_repeated_write_path_fails
    pid read write (doc : document) :
  pid ≠ 0 → ¬ NoDup write →
  ∃ err, acquire pid read write doc = (doc, Raised err).
Proof.
  intros Hpid Hdup. rewrite acquire_run.
  destruct (load doc).2 as [lock|err]; [|by eexists]. unfold bind.
  destruct (_acquire_read pid read lock) as [lockR [[]|err]] eqn:HR;
    [|by eexists].
  destruct (_acquire_write pid write lockR) as [lock' [[]|err]] eqn:HW;
    [|by eexists].
  destruct Hdup. by apply (acquire_write_returned_NoDup pid write lockR lock').
Qed.

Lemma acquire_of_repeated_write_path_fails_witness :
  ∃ err, acquire 100 [] ["data/out"; "data/out"] Missing = (Missing, Raised err).
Proof.
  refine (acquire_of_repeated_write_path_fails 100 [] ["data/out"; "data/out"]
            Missing _ _).
  - discriminate.
  - intros Hnd. apply NoDup_cons in Hnd as [Hnin _]. apply Hnin. left.
Defined.

(** X5.  Readers do not exclude readers.  On a document the protocol has
    written, an acquire of read paths only, none of which has a writer,
    returns, however many readers those paths have. *)
Theorem acquire_read_only_succeeds
    pid read (doc : document) (lock : LockState) :
  reachable doc →
  (load doc).2 = Returned lock →
  (∀ path e, path ∈ read → lock !! path = Some e → writer e = None) →
  (acquire pid read [] doc).2 = Returned tt.
Proof.
  intros (lock0 & _ & Hload0 & Hc)%reachable_consistent Hload Hfree.
  assert (lock0 = lock) as -> by congruence.
  rewrite acquire_run, Hload. unfold bind.
  destruct (acquire_read_succeeds pid read lock) as [lockR ->]; [|done].
  intros path e Hin H. pose proof (Hfree path e Hin H) as Hw.
  destruct (exclusive_inv e (Hc _ _ H)) as [[w ->]|(r & rs & ->)]; [done |].
  split; [done | by eexists].
Qed.

Lemma acquire_read_only_succeeds_witness :
  let doc := (acquire 300 ["data/foo"] []
                (acquire 100 ["data/foo"] ["data/out"] Missing).1).1 in
  (acquire 200 ["data/foo"; "data/bar"] [] doc).2 = Returned tt.
Proof.
  refine (acquire_read_only_succeeds 200 ["data/foo"; "data/bar"]
            (acquire 300 ["data/foo"] []
               (acquire 100 ["data/foo"] ["data/out"] Missing).1).1
            (<["data/out" := Entry (Some 100) None]>
               {["data/foo" := Entry None (Some [100; 300])]}) _ _ _).
  - apply reachable_acquire, reachable_acquire, reachable_start.
  - vm_compute. reflexivity.
  - intros path e Hin.
    apply elem_of_cons in Hin as [->|Hin]; [vm_compute; by intros [= <-] |].
    apply list_elem_of_singleton in Hin as ->. vm_compute. discriminate.
Defined.

(** ** What a release takes away *)

Lemma list_remove_absent (pid : Z) (rs : list Z) :
  pid ∉ rs → list_remove pid rs = rs.
Proof.
  induction rs as [|r rs IH]; [done |]. intros Hnin.
  apply not_elem_of_cons in Hnin as [Hne Hnin]. cbn.
  rewrite bool_decide_false by done. by rewrite IH.
Qed.

Lemma list_remove_subseteq (pid q : Z) (rs : list Z) :
  q ∈ list_remove pid rs → q ∈ rs.
Proof.
  induction rs as [|r rs IH]; [done |]. cbn. case_bool_decide.
  - by right.
  - intros [->|Hin]%elem_of_cons; [left | right; by apply IH].
Qed.

Lemma list_remove_other (pid q : Z) (rs : list Z) :
  q ≠ pid → q ∈ rs → q ∈ list_remove pid rs.
Proof.
  intros Hne. induction rs as [|r rs IH]; [done |]. cbn.
  intros [->|Hin]%elem_of_cons.
  - rewrite bool_decide_false by done. left.
  - case_bool_decide; [done | right; by apply IH].
Qed.

(** A turn of the release loops that returns has left the table alone, or
    has found the caller as the writer, or has found a list of readers. *)
Lemma release_write_path_returned pid path (lock lock' : LockState) :
  release_write_path pid path lock = (lock', Returned tt) →
  lock' = lock
  ∨ ∃ e, lock !! path = Some e ∧ writer e = Some pid
         ∧ lock' = match readers e with
                   | None => delete path lock
                   | Some rs => <[path := Entry None (Some rs)]> lock
                   end.
Proof.
  destruct (lock !! path) as [e|] eqn:H.
  - rewrite (release_write_entry pid path lock e H).
    destruct (writer e) as [w|] eqn:Ew; [|done].
    case_bool_decide as Hw; [subst w | intros [= <-]; by left].
    intros Hrun. right. exists e. split; [done |]. split; [done |].
    destruct (readers e); by injection Hrun as <-.
  - rewrite release_write_free by done. intros [= <-]. by left.
Qed.

Lemma release_read_path_returned pid path (lock lock' : LockState) :
  release_read_path pid path lock = (lock', Returned tt) →
  lock' = lock
  ∨ ∃ e rs, lock !! path = Some e ∧ readers e = Some rs
            ∧ lock' = match list_remove pid rs, writer e with
                      | [], None => delete path lock
                      | [], Some w => <[path := Entry (Some w) None]> lock
                      | rs', w => <[path := Entry w (Some rs')]> lock
                      end.
Proof.
  destruct (lock !! path) as [e|] eqn:H.
  - rewrite (release_read_entry pid path lock e H).
    destruct (readers e) as [rs|] eqn:Er; [|done]. cbv zeta.
    assert ((if bool_decide (pid ∈ rs) then list_remove pid rs else rs)
            = list_remove pid rs) as ->.
    { case_bool_decide; [done |]. by rewrite list_remove_absent. }
    intros Hrun. right. exists e, rs. split; [done |]. split; [done |].
    destruct (list_remove pid rs) as [|r rs'].
    + rewrite bool_decide_true in Hrun by done.
      destruct (writer e); by injection Hrun as <-.
    + rewrite bool_decide_false in Hrun by done. by injection Hrun as <-.
  - rewrite release_read_free by done. intros [= <-]. by left.
Qed.

Lemma takes_only_refl pid (lock : LockState) : takes_only pid lock lock.
Proof. intros path. by repeat split. Qed.

Lemma takes_only_trans pid (lock1 lock2 lock3 : LockState) :
  takes_only pid lock1 lock2 → takes_only pid lock2 lock3 →
  takes_only pid lock1 lock3.
Proof.
  intros H12 H23 path.
  destruct (H12 path) as (A1 & B1 & C1 & D1), (H23 path) as (A2 & B2 & C2 & D2).
  repeat split; eauto.
Qed.

Lemma release_write_path_takes_only pid path (lock lock' : LockState) :
  release_write_path pid path lock = (lock', Returned tt) →
  takes_only pid lock lock'.
Proof.
  intros [->|(e & H & Hw & ->)]%release_write_path_returned;
    [apply takes_only_refl |].
  intros p. unfold readers_of. destruct (decide (p = path)) as [->|Hne].
  - rewrite H. cbn. rewrite Hw.
    destruct (readers e) as [rs|] eqn:Er;
      rewrite ?lookup_insert_eq, ?lookup_delete_eq; cbn;
      repeat split; (done || congruence).
  - destruct (readers e);
      rewrite ?lookup_insert_ne, ?lookup_delete_ne by done; by repeat split.
Qed.

Lemma release_read_path_takes_only pid path (lock lock' : LockState) :
  release_read_path pid path lock = (lock', Returned tt) →
  takes_only pid lock lock'.
Proof.
  intros [->|(e & rs & H & Hrs & ->)]%release_read_path_returned;
    [apply takes_only_refl |].
  intros p. unfold readers_of. destruct (decide (p = path)) as [->|Hne].
  - rewrite H. cbn. rewrite Hrs. cbn.
    pose proof (λ q, list_remove_subseteq pid q rs) as Hsub.
    pose proof (λ q, list_remove_other pid q rs) as Hoth.
    destruct (list_remove pid rs) as [|r rs'], (writer e) as [w|];
      rewrite ?lookup_insert_eq, ?lookup_delete_eq; cbn;
      repeat split; (done || congruence || exact Hsub || exact Hoth).
  - destruct (list_remove pid rs), (writer e);
      rewrite ?lookup_insert_ne, ?lookup_delete_ne by done; by repeat split.
Qed.

Lemma for_each_relation {St A} (R : St → St → Prop) (body : A → M St unit) :
  (∀ s, R s s) →
  (∀ s1 s2 s3, R s1 s2 → R s2 s3 → R s1 s3) →
  (∀ x s s', body x s = (s', Returned tt) → R s s') →
  ∀ xs s s', for_each body xs s = (s', Returned tt) → R s s'.
Proof.
  intros Hrefl Htrans Hbody xs. induction xs as [|x xs IH]; intros s s'.
  - intros [= <-]. apply Hrefl.
  - rewrite for_each_cons. destruct (body x s) as [s1 [[]|e]] eqn:E; [|done].
    intros Hrest. apply (Htrans s s1 s'); [by apply (Hbody x) | by apply IH].
Qed.

(** A turn of a loop that touches only the path it is given leaves alone
    the paths the loop is not given. *)
Lemma for_each_frame (body : string → M LockState unit) :
  (∀ x (s s' : LockState) path,
     body x s = (s', Returned tt) → path ≠ x → s' !! path = s !! path) →
  ∀ xs (s s' : LockState) path,
    for_each body xs s = (s', Returned tt) → path ∉ xs →
    s' !! path = s !! path.
Proof.
  intros Hbody xs. induction xs as [|x xs IH]; intros s s' path.
  - by intros [= <-].
  - rewrite for_each_cons. destruct (body x s) as [s1 [[]|e]] eqn:E; [|done].
    intros Hrest [Hne Hnin]%not_elem_of_cons.
    rewrite (IH _ _ _ Hrest Hnin). by apply (Hbody x).
Qed.

Lemma release_write_path_frame pid x (s s' : LockState) path :
  release_write_path pid x s = (s', Returned tt) → path ≠ x →
  s' !! path = s !! path.
Proof.
  intros [->|(e & H & Hw & ->)]%release_write_path_returned Hne; [done |].
  destruct (readers e); by rewrite ?lookup_insert_ne, ?lookup_delete_ne.
Qed.

Lemma release_read_path_frame pid x (s s' : LockState) path :
  release_read_path pid x s = (s', Returned tt) → path ≠ x →
  s' !! path = s !! path.
Proof.
  intros [->|(e & rs & H & Hrs & ->)]%release_read_path_returned Hne; [done |].
  destruct (list_remove pid rs), (writer e);
    by rewrite ?lookup_insert_ne, ?lookup_delete_ne.
Qed.

Lemma release_table pid read write (lock lock' : LockState) :
  (_release_write pid write ;; _release_read pid read) lock
    = (lock', Returned tt) →
  takes_only pid lock lock'
  ∧ ∀ path, path ∉ read ++ write → lock' !! path = lock !! path.
Proof.
  unfold bind.
  destruct (_release_write pid write lock) as [lock1 [[]|e]] eqn:HW; [|done].
  intros HR. split.
  - apply (takes_only_trans pid lock lock1 lock').
    + revert HW. apply for_each_relation;
        [apply takes_only_refl | apply takes_only_trans |].
      intros ???. apply release_write_path_takes_only.
    + revert HR. apply for_each_relation;
        [apply takes_only_refl | apply takes_only_trans |].
      intros ???. apply release_read_path_takes_only.
  - intros path [Hr Hw]%not_elem_of_app.
    rewrite (for_each_frame _ (release_read_path_frame pid) _ _ _ path HR Hr).
    by rewrite (for_each_frame _ (release_write_path_frame pid) _ _ _ path HW Hw).
Qed.

(** X6.  A release that returns takes nothing away but the caller.  The
    document is the dump of a table in which every path outside the read
    and write paths has the entry it had, and in which, for every path,
    the writer is one the path had and a writer other than the caller is
    still there, the readers are among those the path had and every
    reader other than the caller is still there. *)
Theorem release_takes_only_the_caller
    pid read write (doc : document) (lock : LockState) :
  (load doc).2 = Returned lock →
  (release pid read write doc).2 = Returned tt →
  ∃ lock',
    (release pid read write doc).1 = Json (to_json lock')
    ∧ ∀ path,
        (path ∉ read ++ write → lock' !! path = lock !! path)
        ∧ (∀ w, lock' !! path ≫= writer = Some w →
                lock !! path ≫= writer = Some w)
        ∧ (∀ w, w ≠ pid → lock !! path ≫= writer = Some w →
                lock' !! path ≫= writer = Some w)
        ∧ (∀ q, q ∈ readers_of lock' path → q ∈ readers_of lock path)
        ∧ (∀ q, q ≠ pid → q ∈ readers_of lock path →
                q ∈ readers_of lock' path).
Proof.
  intros Hload. rewrite release_run, Hload.
  destruct ((_release_write pid write ;; _release_read pid read) lock)
    as [lock' [[]|e]] eqn:Hrel; [|done].
  intros _. exists lock'. split; [done |]. intros path.
  destruct (release_table _ _ _ _ _ Hrel) as [Htakes Hframe].
  split; [apply Hframe | apply Htakes].
Qed.

Lemma release_takes_only_the_caller_witness :
  let doc :=
    Json (JDict [("data/foo", JDict [("readers", JList [JInt 100; JInt 200])]);
                 ("data/out", JDict [("writer", JInt 100)])]) in
  let lock : LockState :=
    <["data/out" := Entry (Some 100) None]>
      {["data/foo" := Entry None (Some [100; 200])]} in
  ∃ lock',
    (release 100 ["data/foo"] ["data/out"] doc).1 = Json (to_json lock')
    ∧ ∀ path,
        (path ∉ (["data/foo"] ++ ["data/out"]) → lock' !! path = lock !! path)
        ∧ (∀ w, lock' !! path ≫= writer = Some w →
                lock !! path ≫= writer = Some w)
        ∧ (∀ w, w ≠ 100 → lock !! path ≫= writer = Some w →
                lock' !! path ≫= writer = Some w)
        ∧ (∀ q, q ∈ readers_of lock' path → q ∈ readers_of lock path)
        ∧ (∀ q, q ≠ 100 → q ∈ readers_of lock path →
                q ∈ readers_of lock' path).
Proof.
  refine (release_takes_only_the_caller 100 ["data/foo"] ["data/out"]
            (Json (JDict [("data/foo",
                           JDict [("readers", JList [JInt 100; JInt 200])]);
                          ("data/out", JDict [("writer", JInt 100)])]))
            (<["data/out" := Entry (Some 100) None]>
               {["data/foo" := Entry None (Some [100; 200])]}) _ _);
    vm_compute; reflexivity.
Defined.

Lemma for_each_fixed {St A} (body : A → M St unit) (xs : list A) (s : St) :
  (∀ x, x ∈ xs → body x s = (s, Returned tt)) →
  for_each body xs s = (s, Returned tt).
Proof.
  induction xs as [|x xs IH]; intros Hfix; [done |].
  rewrite for_each_cons, Hfix by left. apply IH. intros ??. apply Hfix. by right.
Qed.

(** X7.  A release by a process that holds none of the paths is a no-op on
    the table: when each write path has no entry or a writer other than
    the caller, and each read path has no entry or a non-empty list of
    readers without the caller, the release returns and writes back the
    dump of the table it has loaded. *)
Theorem release_of_paths_not_held_changes_nothing
    pid read write (doc : document) (lock : LockState) :
  (load doc).2 = Returned lock →
  (∀ path, path ∈ write →
     lock !! path = None
     ∨ ∃ e w, lock !! path = Some e ∧ writer e = Some w ∧ w ≠ pid) →
  (∀ path, path ∈ read →
     lock !! path = None
     ∨ ∃ e rs, lock !! path = Some e ∧ readers e = Some rs
               ∧ (pid ∉ rs) ∧ rs ≠ []) →
  release pid read write doc = (Json (to_json lock), Returned tt).
Proof.
  intros Hload Hwrite Hread. rewrite release_run, Hload. unfold bind.
  unfold _release_write, _release_read.
  rewrite for_each_fixed.
  - rewrite for_each_fixed; [done |]. intros path Hin.
    destruct (Hread path Hin) as [H|(e & rs & H & Hrs & Hnin & Hne)].
    + by apply release_read_free.
    + rewrite (release_read_entry pid path lock e H), Hrs. cbv zeta.
      rewrite (bool_decide_false (pid ∈ rs)), (bool_decide_false (rs = []))
        by done.
      f_equal. apply insert_id. rewrite H. f_equal.
      destruct e as [w rs0]. cbn in *. by subst.
  - intros path Hin.
    destruct (Hwrite path Hin) as [H|(e & w & H & Hw & Hne)].
    + by apply release_write_free.
    + rewrite (release_write_entry pid path lock e H), Hw.
      by rewrite bool_decide_false.
Qed.

Lemma release_of_paths_not_held_changes_nothing_witness :
  let doc :=
    Json (JDict [("data/foo", JDict [("readers", JList [JInt 200])]);
                 ("data/out", JDict [("writer", JInt 200)])]) in
  let lock : LockState :=
    <["data/out" := Entry (Some 200) None]>
      {["data/foo" := Entry None (Some [200])]} in
  release 100 ["data/foo"; "data/bar"] ["data/out"] doc
    = (Json (to_json lock), Returned tt).
Proof.
  refine (release_of_paths_not_held_changes_nothing 100
            ["data/foo"; "data/bar"] ["data/out"]
            (Json (JDict [("data/foo", JDict [("readers", JList [JInt 200])]);
                          ("data/out", JDict [("writer", JInt 200)])]))
            (<["data/out" := Entry (Some 200) None]>
               {["data/foo" := Entry None (Some [200])]}) _ _ _).
  - vm_compute. reflexivity.
  - intros path Hin. apply list_elem_of_singleton in Hin as ->.
    right. exists (Entry (Some 200) None), 200.
    split; [vm_compute; reflexivity |]. split; [reflexivity | discriminate].
  - intros path Hin. apply elem_of_cons in Hin as [->|Hin].
    + right. exists (Entry None (Some [200])), [200].
      split; [vm_compute; reflexivity |]. split; [reflexivity |].
      split; [|discriminate].
      intros Hin. apply list_elem_of_singleton in Hin. discriminate Hin.
    + apply list_elem_of_singleton in Hin as ->. left. vm_compute. reflexivity.
Defined.

(** X8.  A release that raises writes nothing: the document is the one it
    was before the call, so none of the holds the call had already dropped
    in memory is dropped on disk. *)
Theorem release_all_or_nothing pid read write (doc : document) err :
  (release pid read write doc).2 = Raised err →
  (release pid read write doc).1 = doc.
Proof.
  rewrite release_run. destruct (load doc).2 as [lock|e]; [|done].
  by destruct ((_release_write pid write ;; _release_read pid read) lock)
    as [lock' [[]|e]].
Qed.

Lemma release_all_or_nothing_witness :
  let doc :=
    Json (JDict [("data/foo", JDict [("writer", JInt 200)]);
                 ("data/out", JDict [("writer", JInt 100)])]) in
  (release 100 ["data/foo"] ["data/out"] doc).2 = Raised (KeyError "readers")
  ∧ (release 100 ["data/foo"] ["data/out"] doc).1 = doc.
Proof.
  assert ((release 100 ["data/foo"] ["data/out"]
             (Json (JDict [("data/foo", JDict [("writer", JInt 200)]);
                           ("data/out", JDict [("writer", JInt 100)])]))).2
          = Raised (KeyError "readers")) as Hrun.
  { vm_compute. reflexivity. }
  split; [exact Hrun |].
  exact (release_all_or_nothing _ _ _ _ _ Hrun).
Defined.

(** ** Releasing a shared read hold *)

Lemma iter_list_remove_nil (pid : Z) (n : nat) :
  Nat.iter n (list_remove pid) [] = [].
Proof. induction n as [|n IH]; [done |]. by rewrite Nat.iter_succ, IH. Qed.

Lemma release_read_table pid read (lock : LockState) :
  (∀ path e, path ∈ read → lock !! path = Some e →
     writer e = None ∧ is_Some (readers e)) →
  ∃ lock',
    _release_read pid read lock = (lock', Returned tt)
    ∧ ∀ path,
        lock' !! path =
          if bool_decide (path ∈ read)
          then match lock !! path ≫= readers with
               | Some rs =>
                   match Nat.iter (occurrences path read) (list_remove pid) rs
                   with
                   | [] => None
                   | rs' => Some (Entry None (Some rs'))
                   end
               | None => None
               end
          else lock !! path.
Proof.
  unfold _release_read. revert lock.
  induction read as [|p read IH]; intros lock Hshape.
  - exists lock. split; [done |]. intros path.
    by rewrite bool_decide_false by apply not_elem_of_nil.
  - rewrite for_each_cons.
    assert (∀ lock1 : LockState,
              (lock1 !! p = None
               ∨ ∃ rs, lock1 !! p = Some (Entry None (Some rs))) →
              (∀ path, path ≠ p → lock1 !! path = lock !! path) →
              ∀ path e, path ∈ read → lock1 !! path = Some e →
                writer e = None ∧ is_Some (readers e)) as Hnext.
    { intros lock1 Hp Hothers path e Hin.
      destruct (decide (path = p)) as [->|Hne].
      - destruct Hp as [->|[rs ->]]; [done |]. intros [= <-]. split; eauto.
      - rewrite Hothers by done. apply Hshape. by right. }
    assert (∀ path, path ≠ p →
              bool_decide (path ∈ p :: read) = bool_decide (path ∈ read)
              ∧ occurrences path (p :: read) = occurrences path read)
      as Hother.
    { intros path Hne. split.
      - apply bool_decide_ext. rewrite elem_of_cons.
        split; [by intros [?|?] | by right].
      - cbn. by rewrite bool_decide_false by done. }
    assert (occurrences p (p :: read) = S (occurrences p read)) as Hocc.
    { cbn. by rewrite bool_decide_true. }
    destruct (lock !! p) as [e|] eqn:H.
    + destruct (Hshape p e) as [Hw [rs Hrs]]; [left | done |].
      rewrite (release_read_entry pid p lock e H), Hrs, Hw. cbv zeta.
      assert ((if bool_decide (pid ∈ rs) then list_remove pid rs else rs)
              = list_remove pid rs) as ->.
      { case_bool_decide; [done |]. by rewrite list_remove_absent. }
      destruct (list_remove pid rs) as [|r rs'] eqn:Erm.
      * rewrite bool_decide_true by done.
        destruct (IH (delete p lock)) as (lock' & -> & Hlook).
        { apply Hnext; [left; apply lookup_delete_eq |].
          intros ??. by apply lookup_delete_ne. }
        exists lock'. split; [done |]. intros path. rewrite Hlook.
        destruct (decide (path = p)) as [->|Hne].
        -- rewrite (bool_decide_true (p ∈ p :: read)) by left.
           rewrite H, lookup_delete_eq, Hocc.
           change (Some e ≫= readers) with (readers e).
           change (None ≫= readers) with (@None (list Z)).
           rewrite Hrs, Nat.iter_succ_r, Erm, iter_list_remove_nil.
           by case_bool_decide.
        -- destruct (Hother path Hne) as [-> ->].
           by rewrite lookup_delete_ne.
      * rewrite bool_decide_false by done.
        destruct (IH (<[p := Entry None (Some (r :: rs'))]> lock))
          as (lock' & -> & Hlook).
        { apply Hnext; [right; eexists; apply lookup_insert_eq |].
          intros ??. by apply lookup_insert_ne. }
        exists lock'. split; [done |]. intros path. rewrite Hlook.
        destruct (decide (path = p)) as [->|Hne].
        -- rewrite (bool_decide_true (p ∈ p :: read)) by left.
           rewrite H, lookup_insert_eq, Hocc.
           change (Some e ≫= readers) with (readers e).
           change (Some (Entry None (Some (r :: rs'))) ≫= readers)
             with (Some (r :: rs')).
           rewrite Hrs, Nat.iter_succ_r, Erm.
           case_bool_decide as Hin; [done |].
           apply occurrences_0 in Hin. by rewrite Hin.
        -- destruct (Hother path Hne) as [-> ->].
           by rewrite lookup_insert_ne.
    + rewrite release_read_free by done.
      destruct (IH lock) as (lock' & -> & Hlook).
      { apply Hnext; [by left | done]. }
      exists lock'. split; [done |]. intros path. rewrite Hlook.
      destruct (decide (path = p)) as [->|Hne].
      * rewrite (bool_decide_true (p ∈ p :: read)) by left. rewrite H.
        change (None ≫= readers) with (@None (list Z)).
        by case_bool_decide.
      * by destruct (Hother path Hne) as [-> ->].
Qed.

(** X9.  On read paths whose entries, where there are any, hold a list of
    readers and no writer key, the read loop of a release always returns.
    For each such path it has removed the caller from the list once per
    occurrence of the path (the first occurrences of the caller, and
    nothing when the caller is not in the list), has pruned the entry when
    the list came out empty, and has left the other readers in place; the
    other paths are untouched. *)
Theorem release_read_removes_caller_once_per_occurrence
    pid read (lock : LockState) :
  (∀ path e, path ∈ read → lock !! path = Some e →
     writer e = None ∧ is_Some (readers e)) →
  ∃ lock',
    _release_read pid read lock = (lock', Returned tt)
    ∧ ∀ path,
        lock' !! path =
          if bool_decide (path ∈ read)
          then match lock !! path ≫= readers with
               | Some rs =>
                   match Nat.iter (occurrences path read) (list_remove pid) rs
                   with
                   | [] => None
                   | rs' => Some (Entry None (Some rs'))
                   end
               | None => None
               end
          else lock !! path.
Proof. apply release_read_table. Qed.

Lemma release_read_removes_caller_once_per_occurrence_witness :
  let lock : LockState :=
    <["data/bar" := Entry None (Some [100])]>
      {["data/foo" := Entry None (Some [200; 100; 300; 100])]} in
  let read := ["data/foo"; "data/bar"; "data/none"] in
  ∃ lock',
    _release_read 100 read lock = (lock', Returned tt)
    ∧ ∀ path,
        lock' !! path =
          if bool_decide (path ∈ read)
          then match lock !! path ≫= readers with
               | Some rs =>
                   match Nat.iter (occurrences path read) (list_remove 100) rs
                   with
                   | [] => None
                   | rs' => Some (Entry None (Some rs'))
                   end
               | None => None
               end
          else lock !! path.
Proof.
  refine (release_read_removes_caller_once_per_occurrence 100
            ["data/foo"; "data/bar"; "data/none"]
            (<["data/bar" := Entry None (Some [100])]>
               {["data/foo" := Entry None (Some [200; 100; 300; 100])]}) _).
  intros path e Hin.
  apply elem_of_cons in Hin as [->|Hin];
    [vm_compute; intros [= <-]; split; [reflexivity | by eexists] |].
  apply elem_of_cons in Hin as [->|Hin];
    [vm_compute; intros [= <-]; split; [reflexivity | by eexists] |].
  apply list_elem_of_singleton in Hin as ->. vm_compute. discriminate.
Defined.

(** What the read loop leaves in that table. *)
Example release_read_of_shared_path :
  _release_read 100 ["data/foo"; "data/bar"; "data/none"]
    (<["data/bar" := Entry None (Some [100])]>
       {["data/foo" := Entry None (Some [200; 100; 300; 100])]})
  = ({["data/foo" := Entry None (Some [200; 300; 100])]}, Returned tt).
Proof. evaluate. Qed.

(** ** The guard around a body *)

(** X10.  [with rwlock(tmp_dir, read, write): body] releases on every way
    out of the body.  From a document whose table has no entry for the
    paths asked for, when the acquire returns and the body leaves the lock
    document alone, the whole statement ends with the dump of the table
    the document had and with what the body returned or raised. *)
Theorem rwlock_releases_on_every_exit {A}
    pid read write (body : M document A) (doc : document) (lock : LockState) :
  (load doc).2 = Returned lock →
  (∀ path, path ∈ read ++ write → lock !! path = None) →
  (acquire pid read write doc).2 = Returned tt →
  (∀ d, (body d).1 = d) →
  rwlock pid read write body doc
    = (Json (to_json lock), (body (acquire pid read write doc).1).2).
Proof.
  intros Hload Hfree Hacq Hbody. unfold rwlock, bind, try_finally.
  revert Hacq. rewrite acquire_run, Hload.
  destruct ((_acquire_read pid read ;; _acquire_write pid write) lock)
    as [lock1 [[]|e]] eqn:Hrun; [|done].
  intros _. cbn [fst snd]. pose proof (Hbody (Json (to_json lock1))) as Hd.
  destruct (body (Json (to_json lock1))) as [d r]. cbn in Hd. subst d.
  rewrite release_run, load_to_json. cbn [snd].
  by rewrite (acquire_release_table pid read write lock lock1 Hfree Hrun).
Qed.

Lemma rwlock_releases_on_every_exit_witness :
  rwlock 100 ["data/in"] ["data/out"]
    (raise (KeyError "stage failed") : M document unit) Missing
  = (Json (to_json ∅),
     ((raise (KeyError "stage failed") : M document unit)
        (acquire 100 ["data/in"] ["data/out"] Missing).1).2).
Proof.
  refine (rwlock_releases_on_every_exit 100 ["data/in"] ["data/out"]
            (raise (KeyError "stage failed")) Missing ∅ _ _ _ _).
  - reflexivity.
  - intros path _. apply lookup_empty.
  - vm_compute. reflexivity.
  - intros d. reflexivity.
Defined.

(** X11.  When the acquire of the guard raises, the body does not run and
    nothing is released: the statement raises what the acquire raised and
    the document is the one it was. *)
Theorem rwlock_failed_acquire_skips_body {A}
    pid read write (body : M document A) (doc : document) err :
  (acquire pid read write doc).2 = Raised err →
  rwlock pid read write body doc = (doc, Raised err).
Proof.
  unfold rwlock, bind. rewrite acquire_run.
  destruct (load doc).2 as [lock|e]; [|by intros [= <-]].
  destruct ((_acquire_read pid read ;; _acquire_write pid write) lock)
    as [lock1 [[]|e]]; [done | by intros [= <-]].
Qed.

Lemma rwlock_failed_acquire_skips_body_witness :
  let doc := Json (JDict [("data/out", JDict [("readers", JList [JInt 200])])]) in
  rwlock 100 ["data/in"] ["data/out"]
    (modify (λ _, Missing) : M document unit) doc
  = (doc, Raised (LockError (BusyRead (Relpath "data/out") [200]))).
Proof.
  refine (rwlock_failed_acquire_skips_body 100 ["data/in"] ["data/out"]
            (modify (λ _, Missing))
            (Json (JDict [("data/out", JDict [("readers", JList [JInt 200])])]))
            (LockError (BusyRead (Relpath "data/out") [200])) _).
  vm_compute. reflexivity.
Defined.

(** ** The document *)

(** X12.  What [_rwlock] writes on its way out it reads back on its next
    way in: dumping a table and loading the document gives that table,
    whatever the table and whatever was on disk before; the dump always
    passes the schema. *)
Theorem dump_then_load_is_identity (lock : LockState) (doc : document) :
  (json_dump lock ;; load) doc = (Json (to_json lock), Returned lock)
  ∧ COMPLIED_SCHEMA (to_json lock) = Returned lock.
Proof.
  split; [|apply COMPLIED_SCHEMA_to_json].
  unfold bind, json_dump, modify. apply load_to_json.
Qed.

(** X13.  In a document the protocol has written, every entry is held:
    it has a writer and no readers key, or a list of readers that is not
    empty and no writer key.  An empty entry or an empty list of readers
    is never left on disk. *)
Theorem reachable_entries_are_held
    (doc : document) (lock : LockState) path e :
  reachable doc →
  (load doc).2 = Returned lock →
  lock !! path = Some e →
  (∃ w, e = Entry (Some w) None) ∨ (∃ r rs, e = Entry None (Some (r :: rs))).
Proof.
  intros (lock0 & _ & Hload0 & Hc)%reachable_consistent Hload H.
  assert (lock0 = lock) as -> by congruence.
  by apply exclusive_inv, (Hc path).
Qed.

Lemma reachable_entries_are_held_witness :
  let doc := (release 100 ["data/foo"] ["data/out"]
                (acquire 200 ["data/foo"] []
                   (acquire 100 ["data/foo"] ["data/out"] Missing).1).1).1 in
  (load doc).2 = Returned {["data/foo" := Entry None (Some [200])]}
  ∧ ((∃ w, Entry None (Some [200]) = Entry (Some w) None)
     ∨ (∃ r rs, Entry None (Some [200]) = Entry None (Some (r :: rs)))).
Proof.
  split; [vm_compute; reflexivity |].
  refine (reachable_entries_are_held
            (release 100 ["data/foo"] ["data/out"]
               (acquire 200 ["data/foo"] []
                  (acquire 100 ["data/foo"] ["data/out"] Missing).1).1).1
            {["data/foo" := Entry None (Some [200])]} "data/foo"
            (Entry None (Some [200])) _ _ _).
  - apply reachable_release, reachable_acquire, reachable_acquire,
      reachable_start.
  - vm_compute. reflexivity.
  - vm_compute. reflexivity.
Defined.

(** ** The order of the paths *)

Lemma occurrences_Permutation path (paths paths' : list string) :
  paths ≡ₚ paths' → occurrences path paths = occurrences path paths'.
Proof.
  induction 1 as [|p ps ps' _ IH|p q ps|ps1 ps2 ps3 _ IH1 _ IH2]; cbn;
    [done | by rewrite IH | lia | congruence].
Qed.

Lemma acquire_write_succeeds_again pid write (lock : LockState) :
  (pid ≠ 0 → NoDup write) →
  (∀ path e, path ∈ write → lock !! path = Some e →
     has_writer e = false ∧ has_readers e = false) →
  ∃ lock', _acquire_write pid write lock = (lock', Returned tt).
Proof.
  unfold _acquire_write. revert lock.
  induction write as [|p write IH]; intros lock Hnd Hok; [by exists lock |].
  rewrite for_each_cons.
  assert (acquire_write_path pid p lock
          = (<[p := Entry (Some pid) None]> lock, Returned tt)) as ->.
  { destruct (lock !! p) as [e|] eqn:H.
    - destruct (Hok p e) as [Hw Hr]; [left | done |].
      by rewrite (acquire_write_entry pid p lock e H), Hw, Hr.
    - by apply acquire_write_free. }
  apply IH.
  - intros Hpid. by apply NoDup_cons in Hnd as [_ ?].
  - intros path e Hin. destruct (decide (path = p)) as [->|Hne].
    + rewrite lookup_insert_eq. intros [= <-].
      destruct (decide (pid = 0)) as [->|Hpid]; [done |].
      by apply NoDup_cons in Hnd as [? _].
    + rewrite lookup_insert_ne by done. apply Hok. by right.
Qed.

Lemma acquire_Permutation pid read read' write write' (lock lock1 : LockState) :
  read ≡ₚ read' → write ≡ₚ write' →
  (_acquire_read pid read ;; _acquire_write pid write) lock
    = (lock1, Returned tt) →
  (_acquire_read pid read' ;; _acquire_write pid write') lock
    = (lock1, Returned tt).
Proof.
  intros Hr Hw. unfold bind.
  destruct (_acquire_read pid read lock) as [lockR [[]|e]] eqn:HR; [|done].
  intros HW.
  destruct (acquire_read_succeeds pid read' lock) as [lockR' HR'].
  { intros path e Hin. apply (acquire_read_returned_found _ _ _ _ HR).
    by rewrite Hr. }
  assert (lockR' = lockR) as ->.
  { apply map_eq. intros path.
    rewrite (acquire_read_returned _ _ _ _ HR' path),
      (acquire_read_returned _ _ _ _ HR path).
    by rewrite (occurrences_Permutation path read read' Hr). }
  rewrite HR'.
  destruct (acquire_write_succeeds_again pid write' lockR) as [lock1' HW'].
  { intros Hpid. rewrite <- Hw.
    by apply (acquire_write_returned_NoDup pid write lockR lock1). }
  { intros path e Hin. apply (acquire_write_returned_found _ _ _ _ HW).
    by rewrite Hw. }
  rewrite HW'. f_equal. apply map_eq. intros path.
  destruct (acquire_write_returned _ _ _ _ HW) as [-> _].
  destruct (acquire_write_returned _ _ _ _ HW') as [-> _].
  rewrite (bool_decide_ext (path ∈ write') (path ∈ write)); [done |].
  by rewrite Hw.
Qed.

(** X14.  The read paths and the write paths are sets to an acquire that
    returns: given in any other order, the same paths are acquired too and
    the same document is written. *)
Theorem acquire_does_not_depend_on_order
    pid read read' write write' (doc : document) :
  read ≡ₚ read' → write ≡ₚ write' →
  (acquire pid read write doc).2 = Returned tt →
  acquire pid read' write' doc = acquire pid read write doc.
Proof.
  intros Hr Hw. rewrite !acquire_run.
  destruct (load doc).2 as [lock|e]; [|done].
  destruct ((_acquire_read pid read ;; _acquire_write pid write) lock)
    as [lock1 [[]|e]] eqn:Hrun; [|done].
  intros _. by rewrite (acquire_Permutation _ _ _ _ _ _ _ Hr Hw Hrun).
Qed.

Lemma acquire_does_not_depend_on_order_witness :
  acquire 100 ["data/b"; "data/a"; "data/a"] ["data/y"; "data/x"] Missing
  = acquire 100 ["data/a"; "data/b"; "data/a"] ["data/x"; "data/y"] Missing.
Proof.
  refine (acquire_does_not_depend_on_order 100
            ["data/a"; "data/b"; "data/a"] ["data/b"; "data/a"; "data/a"]
            ["data/x"; "data/y"] ["data/y"; "data/x"] Missing _ _ _).
  - apply perm_swap.
  - apply perm_swap.
  - vm_compute. reflexivity.
Defined.

(** ** What a hold excludes *)

Lemma acquire_returned_loads pid read write (doc : document) :
  (acquire pid read write doc).2 = Returned tt →
  ∃ lock lock',
    (load doc).2 = Returned lock
    ∧ (_acquire_read pid read ;; _acquire_write pid write) lock
        = (lock', Returned tt)
    ∧ acquire pid read write doc = (Json (to_json lock'), Returned tt).
Proof.
  intros Hacq. destruct (load doc).2 as [lock|e] eqn:Hload.
  - destruct (acquire_returned_run _ _ _ _ _ Hload Hacq) as (lock' & ? & ?).
    by exists lock, lock'.
  - by rewrite acquire_run, Hload in Hacq.
Qed.

Lemma acquire_write_one_conflict pid path (doc : document) (lock : LockState) e :
  (load doc).2 = Returned lock →
  lock !! path = Some e →
  acquire pid [] [path] doc =
    if has_writer e
    then (doc,
          Raised (conflict path
                    (λ shown, BusyWritten shown (default 0 (writer e)))))
    else if has_readers e
    then (doc,
          Raised (conflict path
                    (λ shown, BusyRead shown (default [] (readers e)))))
    else (Json (to_json (<[path := Entry (Some pid) None]> lock)), Returned tt).
Proof.
  intros Hload H. rewrite acquire_run, Hload. unfold _acquire_write.
  cbn [_acquire_read for_each]. unfold bind, ret.
  rewrite (acquire_write_entry pid path lock e H).
  destruct (has_writer e); [done |]. by destruct (has_readers e).
Qed.

(** X15.  A path that a process other than process 0 has acquired for
    writing is given to nobody else until it is released: on the document
    the acquire has written, every acquire that asks for the path, for
    reading or for writing, raises and leaves the document as it is; asked
    for alone, a path other than the empty one is refused with the
    [LockError] that carries the path and the process that holds it. *)
Theorem write_hold_excludes_everyone
    holder pid read write read' write' path (doc : document) :
  holder ≠ 0 →
  (acquire holder read write doc).2 = Returned tt →
  path ∈ write →
  path ∈ read' ++ write' →
  (∃ err, acquire pid read' write' (acquire holder read write doc).1
          = ((acquire holder read write doc).1, Raised err))
  ∧ (path ≠ "" →
     acquire pid [] [path] (acquire holder read write doc).1
       = ((acquire holder read write doc).1,
          Raised (LockError (BusyWritten (Relpath path) holder)))
     ∧ acquire pid [path] [] (acquire holder read write doc).1
       = ((acquire holder read write doc).1,
          Raised (LockError (BusyWritten (Relpath path) holder)))).
Proof.
  intros Hpid (lock & lock1 & Hload & Hrun & ->)%acquire_returned_loads Hin Hin'.
  cbn [fst].
  assert (lock1 !! path = Some (Entry (Some holder) None)) as H1.
  { by rewrite (acquire_table _ _ _ _ _ Hrun path), bool_decide_true. }
  assert (has_writer (Entry (Some holder) None) = true) as Hw.
  { unfold has_writer. cbn. by apply bool_decide_eq_true. }
  pose proof (load_to_json lock1) as Hload1.
  apply (f_equal snd) in Hload1. cbn [snd] in Hload1.
  split; [|intros Hpath; split].
  - destruct (acquire_raises_on_written pid read' write' path lock1 _ H1 Hw Hin')
      as (lock' & err & Hrun').
    exists err. by apply (acquire_raised_run _ _ _ _ lock1 lock').
  - rewrite (acquire_write_one_conflict pid path _ lock1 _ Hload1 H1), Hw.
    by rewrite conflict_LockError.
  - rewrite acquire_run, Hload1. unfold bind, _acquire_read.
    rewrite for_each_cons.
    rewrite (acquire_read_written pid path lock1 _ holder H1) by done.
    by rewrite conflict_LockError.
Qed.

Lemma write_hold_excludes_everyone_witness :
  let held := (acquire 100 ["data/in"] ["data/out"] Missing).1 in
  (∃ err, acquire 200 ["data/out"; "data/in"] ["data/other"] held
          = (held, Raised err))
  ∧ ("data/out" ≠ "" →
     acquire 200 [] ["data/out"] held
       = (held, Raised (LockError (BusyWritten (Relpath "data/out") 100)))
     ∧ acquire 200 ["data/out"] [] held
       = (held, Raised (LockError (BusyWritten (Relpath "data/out") 100)))).
Proof.
  refine (write_hold_excludes_everyone 100 200 ["data/in"] ["data/out"]
            ["data/out"; "data/in"] ["data/other"] "data/out" Missing _ _ _ _).
  - discriminate.
  - vm_compute. reflexivity.
  - left.
  - left.
Defined.

(** X16.  A path that a process has acquired for reading is given for
    writing to nobody until it is released: on the document the acquire
    has written, every acquire with the path among its write paths raises
    and leaves the document as it is; asked for alone, a path other than
    the empty one is refused with the [LockError] that carries the path
    and its readers, the holder among them. *)
Theorem read_hold_excludes_writers
    holder pid read write read' write' path (doc : document) :
  (acquire holder read write doc).2 = Returned tt →
  path ∈ read →
  path ∈ write' →
  (∃ err, acquire pid read' write' (acquire holder read write doc).1
          = ((acquire holder read write doc).1, Raised err))
  ∧ (path ≠ "" →
     ∃ rs, holder ∈ rs
           ∧ acquire pid [] [path] (acquire holder read write doc).1
             = ((acquire holder read write doc).1,
                Raised (LockError (BusyRead (Relpath path) rs)))).
Proof.
  intros (lock & lock1 & Hload & Hrun & ->)%acquire_returned_loads Hin Hin'.
  cbn [fst].
  assert (path ∉ write) as Hnw.
  { unfold bind in Hrun.
    destruct (_acquire_read holder read lock) as [lockR [[]|e]] eqn:HR; [|done].
    by apply (acquire_read_write_disjoint _ _ _ _ _ _ HR Hrun). }
  destruct (occurrences_pos path read Hin) as [n Hn].
  set (rs := readers_of lock path ++ replicate (S n) holder).
  assert (lock1 !! path = Some (Entry (lock !! path ≫= writer) (Some rs)))
    as H1.
  { rewrite (acquire_table _ _ _ _ _ Hrun path), bool_decide_false by done.
    by rewrite Hn. }
  assert (has_writer (Entry (lock !! path ≫= writer) (Some rs)) = false) as Hw.
  { destruct (lock !! path) as [e|] eqn:H; [|done].
    unfold bind in Hrun.
    destruct (_acquire_read holder read lock) as [lockR [[]|err]] eqn:HR;
      [|done].
    by destruct (acquire_read_returned_found _ _ _ _ HR path e Hin H). }
  assert (holder ∈ rs) as Hrs.
  { apply elem_of_app. right. left. }
  assert (has_readers (Entry (lock !! path ≫= writer) (Some rs)) = true) as Hr.
  { unfold has_readers. cbn. by destruct rs; [apply elem_of_nil in Hrs |]. }
  pose proof (load_to_json lock1) as Hload1.
  apply (f_equal snd) in Hload1. cbn [snd] in Hload1.
  split.
  - destruct (acquire_raises_on_read pid read' write' path lock1 _ H1 Hr Hin')
      as (lock' & err & Hrun').
    exists err. by apply (acquire_raised_run _ _ _ _ lock1 lock').
  - intros Hpath. exists rs. split; [done |].
    rewrite (acquire_write_one_conflict pid path _ lock1 _ Hload1 H1), Hw, Hr.
    by rewrite conflict_LockError.
Qed.

Lemma read_hold_excludes_writers_witness :
  let held := (acquire 100 ["data/in"] ["data/out"] Missing).1 in
  (∃ err, acquire 100 ["data/x"] ["data/y"; "data/in"] held = (held, Raised err))
  ∧ ("data/in" ≠ "" →
     ∃ rs, 100 ∈ rs
           ∧ acquire 100 [] ["data/in"] held
             = (held, Raised (LockError (BusyRead (Relpath "data/in") rs)))).
Proof.
  refine (read_hold_excludes_writers 100 100 ["data/in"] ["data/out"]
            ["data/x"] ["data/y"; "data/in"] "data/in" Missing _ _ _).
  - vm_compute. reflexivity.
  - left.
  - right. left.
Defined.

(** ** Acquire and release among other readers *)

Lemma list_remove_app_absent (pid : Z) (rs l : list Z) :
  pid ∉ rs → list_remove pid (rs ++ l) = rs ++ list_remove pid l.
Proof.
  induction rs as [|r rs IH]; [done |].
  intros [Hne Hnin]%not_elem_of_cons. cbn.
  rewrite bool_decide_false by done. by rewrite IH.
Qed.

Lemma iter_list_remove_replicate (pid : Z) (rs : list Z) (k : nat) :
  pid ∉ rs → Nat.iter k (list_remove pid) (rs ++ replicate k pid) = rs.
Proof.
  intros Hnin. induction k as [|k IH]; [cbn; by rewrite app_nil_r |].
  rewrite Nat.iter_succ_r, list_remove_app_absent by done. cbn.
  by rewrite bool_decide_true.
Qed.

Lemma acquire_release_shared_table pid read write (lock lock1 : LockState) :
  (∀ path, path ∈ write → lock !! path = None) →
  (∀ path, path ∈ read →
     lock !! path = None
     ∨ ∃ rs, lock !! path = Some (Entry None (Some rs))
             ∧ (pid ∉ rs) ∧ rs ≠ []) →
  (_acquire_read pid read ;; _acquire_write pid write) lock
    = (lock1, Returned tt) →
  (_release_write pid write ;; _release_read pid read) lock1
    = (lock, Returned tt).
Proof.
  intros Hwrite Hread Hacq.
  pose proof (acquire_table _ _ _ _ _ Hacq) as Hlook1.
  assert (∀ path, path ∈ read → path ∉ write) as Hdisj.
  { unfold bind in Hacq.
    destruct (_acquire_read pid read lock) as [lockR [[]|e]] eqn:HR; [|done].
    by apply (acquire_read_write_disjoint _ _ _ _ _ _ HR Hacq). }
  unfold bind.
  destruct (release_write_own pid write lock1) as (lock2 & -> & Hlook2).
  { intros path Hin. left. by rewrite Hlook1, bool_decide_true. }
  assert (∀ path, path ∈ read →
            lock2 !! path
              = Some (Entry None
                        (Some (readers_of lock path
                               ++ replicate (occurrences path read) pid)))
            ∧ pid ∉ readers_of lock path) as Hheld.
  { intros path Hin.
    rewrite Hlook2, Hlook1, !bool_decide_false by by apply Hdisj.
    destruct (occurrences_pos path read Hin) as [n ->]. unfold readers_of.
    destruct (Hread path Hin) as [->|(rs & -> & Hnin & _)]; cbn; [|done].
    split; [done | apply not_elem_of_nil]. }
  destruct (release_read_table pid read lock2) as (lock3 & -> & Hlook3).
  { intros path e Hin. destruct (Hheld path Hin) as [-> _].
    intros [= <-]. split; [done | by eexists]. }
  f_equal. apply map_eq. intros path. rewrite Hlook3.
  case_bool_decide as Hin.
  - destruct (Hheld path Hin) as [-> Hnin].
    cbn [mbind option_bind readers].
    rewrite iter_list_remove_replicate by done. unfold readers_of.
    destruct (Hread path Hin) as [->|(rs & -> & _ & Hne)]; [done |].
    cbn. by destruct rs.
  - rewrite Hlook2, Hlook1. case_bool_decide as Hw.
    + symmetry. by apply Hwrite.
    + apply occurrences_0 in Hin. by rewrite Hin.
Qed.

(** X17.  Acquire, then the matching release, among other readers.  From a
    document in which the write paths are free and each read path is free
    or has readers other than the caller and no writer key, an acquire that
    returns followed by the release of the same paths by the same process
    returns and leaves the dump of the table the document had: the other
    readers are where they were. *)
Theorem acquire_release_restores_among_readers
    pid read write (doc : document) (lock : LockState) :
  (load doc).2 = Returned lock →
  (∀ path, path ∈ write → lock !! path = None) →
  (∀ path, path ∈ read →
     lock !! path = None
     ∨ ∃ rs, lock !! path = Some (Entry None (Some rs))
             ∧ (pid ∉ rs) ∧ rs ≠ []) →
  (acquire pid read write doc).2 = Returned tt →
  release pid read write (acquire pid read write doc).1
    = (Json (to_json lock), Returned tt).
Proof.
  intros Hload Hwrite Hread Hacq.
  destruct (acquire_returned_run _ _ _ _ _ Hload Hacq) as (lock1 & Hrun & ->).
  cbn [fst]. rewrite release_run, load_to_json. cbn [snd].
  by rewrite (acquire_release_shared_table pid read write lock lock1).
Qed.

Lemma acquire_release_restores_among_readers_witness :
  let doc :=
    Json (JDict [("data/in", JDict [("readers", JList [JInt 200; JInt 300])])]) in
  let lock : LockState := {["data/in" := Entry None (Some [200; 300])]} in
  release 100 ["data/in"; "data/in2"] ["data/out"]
    (acquire 100 ["data/in"; "data/in2"] ["data/out"] doc).1
  = (Json (to_json lock), Returned tt).
Proof.
  refine (acquire_release_restores_among_readers 100 ["data/in"; "data/in2"]
            ["data/out"]
            (Json (JDict [("data/in",
                           JDict [("readers", JList [JInt 200; JInt 300])])]))
            {["data/in" := Entry None (Some [200; 300])]} _ _ _ _).
  - vm_compute. reflexivity.
  - intros path Hin. apply list_elem_of_singleton in Hin as ->.
    vm_compute. reflexivity.
  - intros path Hin. apply elem_of_cons in Hin as [->|Hin].
    + right. exists [200; 300]. split; [vm_compute; reflexivity |].
      split; [|discriminate]. intros Hin.
      apply elem_of_cons in Hin as [Hin|Hin]; [discriminate Hin |].
      apply list_elem_of_singleton in Hin. discriminate Hin.
    + apply list_elem_of_singleton in Hin as ->. left. vm_compute. reflexivity.
  - vm_compute. reflexivity.
Defined.

(** ** Processes on disjoint paths *)

(** Whether an acquire returns depends on the entries of its own paths
    only. *)
Lemma acquire_returns_by_own_paths
    pid read write (lock lock' lock1 : LockState) :
  (∀ path, path ∈ read ++ write → lock' !! path = lock !! path) →
  (_acquire_read pid read ;; _acquire_write pid write) lock
    = (lock1, Returned tt) →
  ∃ lock1',
    (_acquire_read pid read ;; _acquire_write pid write) lock'
      = (lock1', Returned tt).
Proof.
  intros Hsame. unfold bind.
  destruct (_acquire_read pid read lock) as [lockR [[]|e]] eqn:HR; [|done].
  intros HW.
  destruct (acquire_read_succeeds pid read lock') as [lockR' HR'].
  { intros path e Hin. rewrite Hsame by (apply elem_of_app; by left).
    by apply (acquire_read_returned_found _ _ _ _ HR). }
  rewrite HR'. apply acquire_write_succeeds_again.
  - intros Hpid. by apply (acquire_write_returned_NoDup pid write lockR lock1).
  - intros path e Hin.
    rewrite (acquire_read_returned _ _ _ _ HR' path). unfold readers_of.
    rewrite Hsame by (apply elem_of_app; by right).
    pose proof (acquire_read_returned _ _ _ _ HR path) as Hl.
    unfold readers_of in Hl. rewrite <- Hl.
    by apply (acquire_write_returned_found _ _ _ _ HW).
Qed.

(** A table that an acquire of other paths has been through has, on the
    paths of this one, the entries it had. *)
Lemma acquire_table_elsewhere pid read write (lock lock1 : LockState) path :
  (_acquire_read pid read ;; _acquire_write pid write) lock
    = (lock1, Returned tt) →
  path ∉ read ++ write → lock1 !! path = lock !! path.
Proof.
  intros Hrun [Hr Hw]%not_elem_of_app.
  rewrite (acquire_table _ _ _ _ _ Hrun path), bool_decide_false by done.
  apply occurrences_0 in Hr. by rewrite Hr.
Qed.

Lemma acquire_table_commute
    pidA pidB readA writeA readB writeB
    (lock lockA lockB lockAB lockBA : LockState) :
  (∀ path, path ∈ readA ++ writeA → path ∉ readB ++ writeB) →
  (_acquire_read pidA readA ;; _acquire_write pidA writeA) lock
    = (lockA, Returned tt) →
  (_acquire_read pidB readB ;; _acquire_write pidB writeB) lock
    = (lockB, Returned tt) →
  (_acquire_read pidB readB ;; _acquire_write pidB writeB) lockA
    = (lockAB, Returned tt) →
  (_acquire_read pidA readA ;; _acquire_write pidA writeA) lockB
    = (lockBA, Returned tt) →
  lockAB = lockBA.
Proof.
  intros Hdisj HA HB HAB HBA. apply map_eq. intros path.
  destruct (decide (path ∈ readA ++ writeA)) as [Ha|Ha].
  - pose proof (Hdisj path Ha) as Hb.
    rewrite (acquire_table_elsewhere _ _ _ _ _ path HAB Hb).
    rewrite (acquire_table _ _ _ _ _ HA path),
      (acquire_table _ _ _ _ _ HBA path).
    unfold readers_of.
    by rewrite (acquire_table_elsewhere _ _ _ _ _ path HB Hb).
  - rewrite (acquire_table_elsewhere _ _ _ _ _ path HBA Ha).
    rewrite (acquire_table _ _ _ _ _ HB path),
      (acquire_table _ _ _ _ _ HAB path).
    unfold readers_of.
    by rewrite (acquire_table_elsewhere _ _ _ _ _ path HA Ha).
Qed.

(** X18.  Processes that ask for disjoint paths do not interfere.  When
    two acquires whose paths are disjoint each return on a document, each
    of them also returns on the document the other one has written, and
    the document written after both is the same in either order. *)
Theorem acquires_of_disjoint_paths_commute
    pidA pidB readA writeA readB writeB (doc : document) :
  (∀ path, path ∈ readA ++ writeA → path ∉ readB ++ writeB) →
  (acquire pidA readA writeA doc).2 = Returned tt →
  (acquire pidB readB writeB doc).2 = Returned tt →
  (acquire pidB readB writeB (acquire pidA readA writeA doc).1).2 = Returned tt
  ∧ (acquire pidA readA writeA (acquire pidB readB writeB doc).1).2
    = Returned tt
  ∧ (acquire pidB readB writeB (acquire pidA readA writeA doc).1).1
    = (acquire pidA readA writeA (acquire pidB readB writeB doc).1).1.
Proof.
  intros Hdisj (lock & lockA & Hload & HA & ->)%acquire_returned_loads
    (lock' & lockB & Hload' & HB & ->)%acquire_returned_loads.
  assert (lock' = lock) as -> by congruence. cbn [fst].
  destruct (acquire_returns_by_own_paths pidB readB writeB lock lockA lockB)
    as [lockAB HAB]; [|done |].
  { intros path Hin. apply (acquire_table_elsewhere _ _ _ _ _ path HA).
    intros Ha. by apply (Hdisj path Ha). }
  destruct (acquire_returns_by_own_paths pidA readA writeA lock lockB lockA)
    as [lockBA HBA]; [|done |].
  { intros path Hin. apply (acquire_table_elsewhere _ _ _ _ _ path HB).
    by apply Hdisj. }
  rewrite !acquire_run, !load_to_json. cbn [snd]. rewrite HAB, HBA. cbn [fst snd].
  split; [done |]. split; [done |]. f_equal. f_equal.
  by apply (acquire_table_commute pidA pidB readA writeA readB writeB
              lock lockA lockB).
Qed.

Lemma acquires_of_disjoint_paths_commute_witness :
  let doc := Json (JDict [("data/in", JDict [("readers", JList [JInt 300])])]) in
  (acquire 200 ["data/b"] ["data/y"] (acquire 100 ["data/in"] ["data/x"] doc).1).2
    = Returned tt
  ∧ (acquire 100 ["data/in"] ["data/x"] (acquire 200 ["data/b"] ["data/y"] doc).1).2
    = Returned tt
  ∧ (acquire 200 ["data/b"] ["data/y"] (acquire 100 ["data/in"] ["data/x"] doc).1).1
    = (acquire 100 ["data/in"] ["data/x"] (acquire 200 ["data/b"] ["data/y"] doc).1).1.
Proof.
  refine (acquires_of_disjoint_paths_commute 100 200
            ["data/in"] ["data/x"] ["data/b"] ["data/y"]
            (Json (JDict [("data/in", JDict [("readers", JList [JInt 300])])]))
            _ _ _).
  - intros path Ha Hb.
    apply elem_of_cons in Ha as [->|Ha];
      [|apply list_elem_of_singleton in Ha as ->];
      (apply elem_of_cons in Hb as [Hb|Hb];
         [discriminate Hb | apply list_elem_of_singleton in Hb; discriminate Hb]).
  - vm_compute. reflexivity.
  - vm_compute. reflexivity.
Defined.

End RWLockProtocol.
